(** * The [Uploader] class of [src/uploader.ts], embedded in Rocq.

    The class wraps a hidden file input, a size filter, a file cache keyed by
    a derived string, and an upload loop with a timeout race and linear
    back-off.  The embedding keeps the structure of the TypeScript:

    - object literals with optional properties are records whose fields are
      [field]s (absent / present-but-undefined / present), so that the spread
      [{...a, ...b}] is modelled property by property;
    - [fileCache : Map<string, File>] is a [gmap string File];
    - the methods run in a small state-and-trace monad [UpM]: the state is the
      instance together with the browser objects it created, the trace is the
      list of externally visible effects (events emitted on the ['upload']
      channel, calls of the upload function, timers, settlement of the
      returned promise);
    - what the outside world does (how an upload call behaves, which native
      progress events a transfer produces) is supplied by oracles;
    - a method runs to its end before the next one starts: the interleaving
      of several pending uploads is not modelled.

    JavaScript numbers are modelled by integers: fractional values, [NaN] and
    the infinities are outside the model, except for the literal [Infinity]
    of the size filter, which is modelled by "no limit".  Number-to-string
    conversion is the decimal one.  Listeners of the event emitter are
    assumed not to throw.

    The properties of [upload] are stated for a call made in [start u], an
    arbitrary instance [u] with no browser object yet; by
    [upload_xhrs_irrelevant] and [session_invariant] they hold the same in
    every state an instance can reach. *)

From Stdlib Require Import QArith Ascii.
From stdpp Require Import base option list strings pretty gmap.

Set Warnings "-register-all".

Local Open Scope string_scope.
Local Open Scope Z_scope.
Local Open Scope list_scope.

(** ** Values *)

(** The untyped ([any]) values that travel through the uploader: results of
    uploads, thrown errors, extra form data. *)
Inductive JsVal :=
| VUndefined
| VNull
| VBool (b : bool)
| VNumber (n : Z)
| VString (s : string)
| VError (message : string)
| VObject (entries : list (string * JsVal)).

(** An optional property of an object literal.  [Absent] and [Undefined] both
    read as [undefined], but only [Absent] lets a spread keep what is under
    it. *)
Inductive field (A : Type) :=
| Absent
| Undefined
| Value (a : A).
Arguments Absent {A}.
Arguments Undefined {A}.
Arguments Value {A} a.

(** Reading a property: [o.p]. *)
Definition read {A} (p : field A) : option A :=
  match p with Value a => Some a | _ => None end.

(** One property of [{...base, ...over}]. *)
Definition spread {A} (base over : field A) : field A :=
  match over with Absent => base | _ => over end.

(** ** Files *)

(** A browser [File]: the metadata the uploader reads, and the identity of
    the object (two distinct [File] objects may carry the same metadata). *)
Record File := {
  name : string;
  size : Z;
  lastModified : Z;
  handle : nat
}.

(** ** Upload options *)

Inductive Method := POST | PUT | PATCH.

Record UploadOptions := {
  url : field string;
  method : field Method;
  headers : field (list (string * string));
  data : field (list (string * JsVal))
}.

(** [{...base, ...over}] on [UploadOptions]. *)
Definition spreadOptions (base over : UploadOptions) : UploadOptions :=
  {| url := spread (url base) (url over);
     method := spread (method base) (method over);
     headers := spread (headers base) (headers over);
     data := spread (data base) (data over) |}.

(** [{...base, ...over}] where [over] may be [undefined] (spreading
    [undefined] adds nothing). *)
Definition spreadOptional (base : UploadOptions) (over : option UploadOptions)
  : UploadOptions :=
  match over with
  | Some o => spreadOptions base o
  | None => spreadOptions base
              {| url := Absent; method := Absent; headers := Absent; data := Absent |}
  end.

(** ** Events *)

(** [UploadEvent]: [{type, payload}], the payload depending on the type. *)
Inductive UploadEvent :=
| EvSelect (files : list File)
| EvProgress (total loaded : Z) (percent : Q)
| EvError (error : JsVal)
| EvSuccess (result : JsVal)
| EvRetry (attempt : nat) (error : JsVal).

(** ** The outside world *)

(** What one call [uploadFunction(file, mergedOptions)], raced against the
    timeout timer, turns out to do. *)
Inductive Behaviour :=
| Throws (e : JsVal)     (* the call itself throws, no promise is returned *)
| Fulfils (v : JsVal)    (* the promise is fulfilled before the timer fires *)
| Rejects (e : JsVal)    (* the promise is rejected before the timer fires *)
| Stalls.                (* the timer fires before the promise settles *)

(** A caller-supplied upload function.  It need not be pure: its behaviour
    may depend on how many times it has been invoked by this [upload] call
    (the last argument). *)
Definition UploadFunction : Type := File -> UploadOptions -> nat -> Behaviour.

Inductive FormValue :=
| FormFile (f : File)
| FormField (v : JsVal).

(** The arguments of [fetch(url, {method, headers, body})].  The [signal]
    property of the init object is the only way to abort a [fetch]. *)
Record Request := {
  req_url : string;
  req_method : Method;
  req_headers : option (list (string * string));
  req_body : list (string * FormValue);
  req_signal : option nat
}.

(** A native [ProgressEvent]. *)
Record ProgressEvent := {
  lengthComputable : bool;
  loaded : Z;
  total : Z
}.

(** An [XMLHttpRequest] object: whether [send] was called on it, and the
    [upload.onprogress] handler, given by the events it emits. *)
Record Xhr := {
  xhr_sent : bool;
  xhr_onprogress : option (ProgressEvent -> list UploadEvent)
}.

(** ** Configuration and instance *)

(** [UploadConfig] as the caller writes it. *)
Record UploadConfig := {
  accept : field string;
  multiple : field bool;
  maxRetries : field Z;
  timeout : field Z;
  maxSize : field Z;
  customUploader : field UploadFunction
}.

(** The empty object literal [{}], default of the constructor's parameter. *)
Definition emptyConfig : UploadConfig :=
  {| accept := Absent; multiple := Absent; maxRetries := Absent;
     timeout := Absent; maxSize := Absent; customUploader := Absent |}.

(** The hidden [<input type="file">]. *)
Record InputElement := {
  input_accept : option string;
  input_multiple : option bool
}.

Record Uploader := {
  config : UploadConfig;
  fileCache : gmap string File;
  inputElement : InputElement;
  defaultUploadOptions : UploadOptions
}.

(** ** Effects *)

Inductive Action :=
| Emit (ev : UploadEvent)                          (* eventEmitter.emit('upload', ev) *)
| CallCustom (file : File) (opts : UploadOptions)  (* config.customUploader(file, opts) *)
| Fetch (req : Request)                            (* fetch(url, init) *)
| SetTimeout (ms : option Z)                       (* the timer of the race *)
| Wait (ms : Z)                                    (* await of a setTimeout(resolve, ms) *)
| Resolve (v : JsVal)                              (* resolve(v) of the returned promise *)
| Reject (e : JsVal).                              (* reject(e) of the returned promise *)

(** The instance and the browser objects created on its behalf. *)
Record Sys := {
  this : Uploader;
  xhrs : list Xhr
}.

Definition UpM (A : Type) : Type := Sys -> A * Sys * list Action.

#[export] Instance UpM_ret : MRet UpM := fun A a s => (a, s, []).
#[export] Instance UpM_bind : MBind UpM := fun A B k c s =>
  let '(a, s1, t1) := c s in
  let '(b, s2, t2) := k a s1 in
  (b, s2, t1 ++ t2).

Definition act (a : Action) : UpM unit := fun s => (tt, s, [a]).
Definition getThis : UpM Uploader := fun s => (this s, s, []).
Definition getXhrs : UpM (list Xhr) := fun s => (xhrs s, s, []).
Definition setThis (u : Uploader) : UpM unit :=
  fun s => (tt, {| this := u; xhrs := xhrs s |}, []).
Definition newXhr (x : Xhr) : UpM unit :=
  fun s => (tt, {| this := this s; xhrs := xhrs s ++ [x] |}, []).

(** [forEach] over a list. *)
Fixpoint forEach {A} (l : list A) (body : A -> UpM unit) : UpM unit :=
  match l with
  | [] => mret tt
  | a :: l' => body a ;; forEach l' body
  end.

(** ** Methods *)

(** [emitEvent(type, payload)]. *)
Definition emitEvent (ev : UploadEvent) : UpM unit := act (Emit ev).

(** [createInputElement(config)]. *)
Definition createInputElement (c : UploadConfig) : InputElement :=
  {| input_accept := read (accept c); input_multiple := read (multiple c) |}.

(** The constructor: the caller's config spread over the defaults. *)
Definition new_Uploader (c : UploadConfig) : Uploader :=
  let cfg :=
    {| accept := spread (Value "*") (accept c);
       multiple := spread (Value false) (multiple c);
       maxRetries := spread (Value 3) (maxRetries c);
       timeout := spread (Value 30000) (timeout c);
       maxSize := spread (Value (10 * 1024 * 1024)) (maxSize c);
       customUploader := spread Absent (customUploader c) |} in
  {| config := cfg;
     fileCache := ∅;
     inputElement := createInputElement cfg;
     defaultUploadOptions :=
       {| url := Value "/upload"; method := Value POST;
          headers := Absent; data := Absent |} |}.

(** [setDefaultUploadOptions(options)]. *)
Definition setDefaultUploadOptions (options : UploadOptions) : UpM unit :=
  u ← getThis;
  setThis {| config := config u;
             fileCache := fileCache u;
             inputElement := inputElement u;
             defaultUploadOptions := spreadOptions (defaultUploadOptions u) options |}.

(** [generateFileKey(file)]: the template
    [`${file.name}-${file.size}-${file.lastModified}`]. *)
Definition generateFileKey (file : File) : string :=
  name file +:+ "-" +:+ pretty (size file) +:+ "-" +:+ pretty (lastModified file).

(** [this.config.maxSize || Infinity]: [None] is [Infinity]. *)
Definition sizeLimit (c : UploadConfig) : option Z :=
  match read (maxSize c) with
  | Some m => if decide (m = 0) then None else Some m
  | None => None
  end.

(** [file.size <= (this.config.maxSize || Infinity)]. *)
Definition withinLimit (c : UploadConfig) (file : File) : bool :=
  match sizeLimit c with
  | Some m => bool_decide (size file ≤ m)
  | None => true
  end.

(** [this.fileCache.set(key, file)] and [this.fileCache.delete(key)]. *)
Definition withCache (u : Uploader) (cache : gmap string File) : Uploader :=
  {| config := config u;
     fileCache := cache;
     inputElement := inputElement u;
     defaultUploadOptions := defaultUploadOptions u |}.

Definition cacheSet (key : string) (file : File) : UpM unit :=
  u ← getThis;
  setThis (withCache u (<[key := file]> (fileCache u))).

Definition cacheDelete (key : string) : UpM unit :=
  u ← getThis;
  setThis (withCache u (delete key (fileCache u))).

(** The message of the size filter. *)
Definition oversizeMessage : string := "部分文件超过最大尺寸限制".

(** [handleFileSelection(files)]. *)
Definition handleFileSelection (files : list File) : UpM unit :=
  u ← getThis;
  let validFiles := filter (fun file => withinLimit (config u) file = true) files in
  (if decide (length validFiles ≠ length files)
   then emitEvent (EvError (VString oversizeMessage))
   else mret tt) ;;
  forEach validFiles (fun file =>
    let fileKey := generateFileKey file in
    cacheSet fileKey file) ;;
  emitEvent (EvSelect validFiles).

(** The ['change'] listener of the input element; [files] is [null] when the
    element carries no file list. *)
Definition onChange (files : option (list File)) : UpM unit :=
  match files with
  | Some fs => handleFileSelection fs
  | None => mret tt
  end.

(** [getCachedFile(fileKey)]. *)
Definition getCachedFile (u : Uploader) (fileKey : string) : option File :=
  fileCache u !! fileKey.

(** ** Uploading *)

(** How the returned promise ends. *)
Inductive Settled :=
| Resolved (v : JsVal)
| Rejected (e : JsVal).

(** [new Error('Upload timeout')]. *)
Definition timeoutError : JsVal := VError "Upload timeout".

(** The handler installed on [xhr.upload.onprogress]. *)
Definition progressHandler (event : ProgressEvent) : list UploadEvent :=
  if lengthComputable event then
    let percentComplete := ((inject_Z (loaded event) / inject_Z (total event)) * 100)%Q in
    [EvProgress (total event) (loaded event) percentComplete]
  else [].

(** The browser's side of progress reporting: the progress events of a
    transfer are dispatched on the [XMLHttpRequest] objects that carry it. *)
Definition dispatchProgress (events : list ProgressEvent) (x : Xhr) : list UploadEvent :=
  if xhr_sent x then
    match xhr_onprogress x with
    | Some handler => flat_map handler events
    | None => []
    end
  else [].

Definition deliverProgress (events : list ProgressEvent) : UpM unit :=
  xs ← getXhrs;
  forEach (flat_map (dispatchProgress events) xs) emitEvent.

(** The multipart body built by [defaultUploader]. *)
Definition formData (file : File) (options : option UploadOptions)
  : list (string * FormValue) :=
  ("file", FormFile file) ::
  match options ≫= (fun o => read (data o)) with
  | Some entries => map (fun kv => (fst kv, FormField (snd kv))) entries
  | None => []
  end.

(** [options?.url || '/upload']: the empty string is falsy. *)
Definition targetUrl (options : option UploadOptions) : string :=
  match options ≫= (fun o => read (url o)) with
  | Some s => if decide (s = "") then "/upload" else s
  | None => "/upload"
  end.

(** [options?.method || 'POST']. *)
Definition targetMethod (options : option UploadOptions) : Method :=
  match options ≫= (fun o => read (method o)) with
  | Some m => m
  | None => POST
  end.

(** The request issued by [defaultUploader(file, options)]. *)
Definition defaultRequest (file : File) (options : option UploadOptions) : Request :=
  {| req_url := targetUrl options;
     req_method := targetMethod options;
     req_headers := options ≫= (fun o => read (headers o));
     req_body := formData file options;
     req_signal := None |}.

(** [retries < this.config.maxRetries!]; a comparison with [undefined] is
    false. *)
Definition mayRetry (c : UploadConfig) (retries : nat) : bool :=
  match read (maxRetries c) with
  | Some m => bool_decide (Z.of_nat retries < m)
  | None => false
  end.

(** The largest number of retries [mayRetry] can allow. *)
Definition retryBudget (c : UploadConfig) : nat :=
  match read (maxRetries c) with
  | Some m => Z.to_nat m
  | None => 0
  end.

Section Upload.

(** How the [n]-th [fetch] of an [upload] call behaves, [response.json()]
    included. *)
Variable network : Request -> nat -> Behaviour.

(** The native progress events of the transfer made by the [n]-th attempt. *)
Variable native : nat -> list ProgressEvent.

(** [defaultUploader(file, options)]. *)
Definition defaultUploader (file : File) (options : option UploadOptions) (n : nat)
  : UpM Behaviour :=
  let req := defaultRequest file options in
  act (Fetch req) ;;
  mret (network req n).

(** [(this.config.customUploader || this.defaultUploader)(file, mergedOptions)]. *)
Definition uploadFunction (file : File) (mergedOptions : UploadOptions) (n : nat)
  : UpM Behaviour :=
  u ← getThis;
  match read (customUploader (config u)) with
  | Some custom =>
      act (CallCustom file mergedOptions) ;;
      mret (custom file mergedOptions n)
  | None => defaultUploader file (Some mergedOptions) n
  end.

(** The [try] part of an attempt up to the [await] of the race: [inl] is
    the awaited result, [inr] the error that reaches [catch]. *)
Definition race (file : File) (mergedOptions : UploadOptions) (n : nat)
  : UpM (JsVal + JsVal) :=
  b ← uploadFunction file mergedOptions n;
  match b with
  | Throws e => mret (inr e)
  | _ =>
      u ← getThis;
      act (SetTimeout (read (timeout (config u)))) ;;
      deliverProgress (native n) ;;
      mret (match b with
            | Fulfils v => inl v
            | Rejects e => inr e
            | _ => inr timeoutError
            end)
  end.

(** The closure [attemptUpload] of [upload]; [retries] is the captured
    counter.  [fuel] bounds the recursion; [None] means it ran out. *)
Fixpoint attemptUpload (fuel : nat) (file : File) (fileKey : string)
    (mergedOptions : UploadOptions) (retries : nat) : UpM (option Settled) :=
  match fuel with
  | O => mret None
  | S fuel' =>
      r ← race file mergedOptions retries;
      match r with
      | inl result =>
          emitEvent (EvSuccess result) ;;
          cacheDelete fileKey ;;
          act (Resolve result) ;;
          mret (Some (Resolved result))
      | inr error =>
          emitEvent (EvError error) ;;
          u ← getThis;
          if mayRetry (config u) retries then
            let retries := S retries in
            emitEvent (EvRetry retries error) ;;
            act (Wait (1000 * Z.of_nat retries)) ;;
            attemptUpload fuel' file fileKey mergedOptions retries
          else
            act (Reject error) ;;
            mret (Some (Rejected error))
      end
  end.

(** [uploadWithProgress(file, uploadMethod)]: the [XMLHttpRequest] is
    created and given a progress handler; neither [open] nor [send] is
    called on it. *)
Definition uploadWithProgress {A} (file : File) (uploadMethod : UpM A) : UpM A :=
  let xhr := {| xhr_sent := false; xhr_onprogress := Some progressHandler |} in
  newXhr xhr ;;
  uploadMethod.

(** [upload(file, uploadOptions?)]. *)
Definition upload (file : File) (uploadOptions : option UploadOptions)
  : UpM (option Settled) :=
  let fileKey := generateFileKey file in
  u ← getThis;
  let mergedOptions := spreadOptional (defaultUploadOptions u) uploadOptions in
  uploadWithProgress file
    (attemptUpload (S (retryBudget (config u))) file fileKey mergedOptions 0).

End Upload.

(** ** Reading a run *)

(** An instance for which no browser object has been created yet. *)
Definition start (u : Uploader) : Sys := {| this := u; xhrs := [] |}.

Definition result_of {A} (r : A * Sys * list Action) : A := fst (fst r).
Definition final {A} (r : A * Sys * list Action) : Uploader := this (snd (fst r)).
Definition trace_of {A} (r : A * Sys * list Action) : list Action := snd r.

(** The events of a trace, in order of emission. *)
Definition events (t : list Action) : list UploadEvent :=
  omap (fun a => match a with Emit ev => Some ev | _ => None end) t.

Definition is_select (ev : UploadEvent) : bool :=
  match ev with EvSelect _ => true | _ => false end.
Definition is_progress (ev : UploadEvent) : bool :=
  match ev with EvProgress _ _ _ => true | _ => false end.
Definition is_error (ev : UploadEvent) : bool :=
  match ev with EvError _ => true | _ => false end.
Definition is_retry (ev : UploadEvent) : bool :=
  match ev with EvRetry _ _ => true | _ => false end.

(** The invocations of the upload function in a trace. *)
Definition is_call (a : Action) : bool :=
  match a with CallCustom _ _ | Fetch _ => true | _ => false end.

(** ** Vocabulary of the properties *)

(** The files [handleFileSelection] keeps. *)
Definition validFiles (c : UploadConfig) (files : list File) : list File :=
  filter (fun file => withinLimit c file = true) files.

(** The cache after [fileCache.set] was called for each file of [l] in turn. *)
Definition cacheAll (l : list File) (cache : gmap string File) : gmap string File :=
  foldl (fun m file => <[generateFileKey file := file]> m) cache l.

(** The last file of [l] stored under [key]. *)
Definition lastWithKey (key : string) (l : list File) : option File :=
  last (filter (fun file => generateFileKey file = key) l).

(** Runs the primitive steps of a monadic computation on an explicit state. *)
Ltac run :=
  cbv beta iota zeta delta
    [mbind mret UpM_bind UpM_ret cacheSet cacheDelete emitEvent act
     getThis setThis getXhrs newXhr this xhrs].

(** A file under the configured maximum, if there is one. *)
Definition atOrUnderMax (c : UploadConfig) (file : File) : Prop :=
  ∀ m, read (maxSize c) = Some m -> size file ≤ m.


(** A file above the configured maximum. *)
Definition exceedsMax (c : UploadConfig) (file : File) : Prop :=
  ∃ m, read (maxSize c) = Some m ∧ m < size file.

(** A file above the limit the filter compares with: a configured maximum
    other than zero. *)
Definition exceedsLimit (c : UploadConfig) (file : File) : Prop :=
  ∃ m, read (maxSize c) = Some m ∧ m ≠ 0 ∧ m < size file.

(** [file] is in the payload of a [select] event of the trace. *)
Definition selected (t : list Action) (file : File) : Prop :=
  ∃ payload, EvSelect payload ∈ events t ∧ file ∈ payload.

(** The selection of the batch [files] keeps [f] out: it is in no [select]
    payload, and the cache holds it only where it held it before. *)
Definition keptOut (s : Sys) (files : list File) (f : File) : Prop :=
  let r := handleFileSelection files s in
  ¬ selected (trace_of r) f ∧
  ∀ key, fileCache (final r) !! key = Some f -> fileCache (this s) !! key = Some f.

(** A selection that keeps out every file above the configured maximum. *)
Definition excludesAboveMax (s : Sys) (files : list File) : Prop :=
  ∀ f, f ∈ files -> exceedsMax (config (this s)) f -> keptOut s files f.

(** The entries a cache holds under [key]. *)
Definition entriesUnder (key : string) (cache : gmap string File) : list (string * File) :=
  filter (fun kv => fst kv = key) (map_to_list cache).

(** The state a computation ends in. *)
Definition state_of {A} (r : A * Sys * list Action) : Sys := snd (fst r).

(** The call an attempt makes: the custom function if one is configured,
    [fetch] otherwise. *)
Definition invocation (u : Uploader) (file : File) (opts : UploadOptions) : Action :=
  match read (customUploader (config u)) with
  | Some _ => CallCustom file opts
  | None => Fetch (defaultRequest file (Some opts))
  end.

(** How the call of attempt [n] (counted from 0) behaves. *)
Definition behaviourAt (network : Request -> nat -> Behaviour)
    (u : Uploader) (file : File) (opts : UploadOptions) (n : nat) : Behaviour :=
  match read (customUploader (config u)) with
  | Some custom => custom file opts n
  | None => network (defaultRequest file (Some opts)) n
  end.

(** The error of an attempt that fails. *)
Definition failure (b : Behaviour) : option JsVal :=
  match b with
  | Throws e | Rejects e => Some e
  | Stalls => Some timeoutError
  | Fulfils _ => None
  end.

(** The effects of an attempt up to the end of the race. *)
Definition raceTrace (u : Uploader) (file : File) (opts : UploadOptions)
    (b : Behaviour) : list Action :=
  invocation u file opts ::
  match b with
  | Throws _ => []
  | _ => [SetTimeout (read (timeout (config u)))]
  end.

(** The effects of attempt [k] when it fails with [e] and is retried. *)
Definition retriedAttempt (u : Uploader) (file : File) (opts : UploadOptions)
    (b : Behaviour) (e : JsVal) (k : nat) : list Action :=
  raceTrace u file opts b ++
  [Emit (EvError e); Emit (EvRetry (S k) e); Wait (1000 * Z.of_nat (S k))].

(** The effects of an attempt that fails with [e] and is not retried. *)
Definition lastAttempt (u : Uploader) (file : File) (opts : UploadOptions)
    (b : Behaviour) (e : JsVal) : list Action :=
  raceTrace u file opts b ++ [Emit (EvError e); Reject e].

(** The effects of an attempt that succeeds with [v]. *)
Definition successfulAttempt (u : Uploader) (file : File) (opts : UploadOptions)
    (b : Behaviour) (v : JsVal) : list Action :=
  raceTrace u file opts b ++ [Emit (EvSuccess v); Resolve v].

(** No [XMLHttpRequest] of the state carries a transfer. *)
Definition unsent (xs : list Xhr) : Prop :=
  Forall (fun x => xhr_sent x = false) xs.

(** The effects an [upload] call can have. *)
Inductive uploadAction (u : Uploader) (file : File) (opts : UploadOptions)
  : Action -> Prop :=
| ua_call : uploadAction u file opts (invocation u file opts)
| ua_timer : uploadAction u file opts (SetTimeout (read (timeout (config u))))
| ua_success v : uploadAction u file opts (Emit (EvSuccess v))
| ua_error e : uploadAction u file opts (Emit (EvError e))
| ua_retry k e : uploadAction u file opts (Emit (EvRetry k e))
| ua_wait ms : uploadAction u file opts (Wait ms)
| ua_resolve v : uploadAction u file opts (Resolve v)
| ua_reject e : uploadAction u file opts (Reject e).

(** The [XMLHttpRequest] an [upload] call leaves behind. *)
Definition progressXhr : Xhr :=
  {| xhr_sent := false; xhr_onprogress := Some progressHandler |}.

(** The invocations of the upload function, the delays awaited and the
    [retry] events of a trace. *)
Definition calls (t : list Action) : list Action :=
  filter (fun a => is_call a = true) t.
Definition waits (t : list Action) : list Z :=
  omap (fun a => match a with Wait ms => Some ms | _ => None end) t.
Definition retries (t : list Action) : list UploadEvent :=
  filter (fun ev => is_retry ev = true) (events t).

(** [merged] is [over] laid on [base]: a property that [over] has wins, a
    property it lacks comes from [base]. *)
Definition overrides {A} (base over merged : field A) : Prop :=
  (over = Absent -> merged = base) ∧ (over ≠ Absent -> merged = over).

(** The per-call options shallow-merged over the defaults, property by
    property, per-call values taking precedence. *)
Definition shallowMerge (base over merged : UploadOptions) : Prop :=
  overrides (url base) (url over) (url merged) ∧
  overrides (method base) (method over) (method merged) ∧
  overrides (headers base) (headers over) (headers merged) ∧
  overrides (data base) (data over) (data merged).

(** The address an invocation of the upload function is given: the [url] of
    the request for [fetch], the [url] option for a custom function. *)
Definition address (a : Action) : option string :=
  match a with
  | Fetch req => Some (req_url req)
  | CallCustom _ opts => read (url opts)
  | _ => None
  end.

(** The progress events of a trace. *)
Definition progressEvents (t : list Action) : list UploadEvent :=
  filter (fun ev => is_progress ev = true) (events t).

(** ** Sample inputs *)

Definition report : File :=
  {| name := "report.pdf"; size := 2048; lastModified := 1700000000000; handle := 1 |}.

(** The same file picked a second time: a new object, the same metadata. *)
Definition reportAgain : File :=
  {| name := "report.pdf"; size := 2048; lastModified := 1700000000000; handle := 2 |}.

Definition movie : File :=
  {| name := "movie.mp4"; size := 20 * 1024 * 1024; lastModified := 1700000000500;
     handle := 3 |}.

(** A configuration whose maximum size is zero. *)
Definition zeroMax : UploadConfig :=
  {| accept := Absent; multiple := Absent; maxRetries := Absent;
     timeout := Absent; maxSize := Value 0; customUploader := Absent |}.

(** A custom upload function that succeeds, as in the test suite. *)
Definition accepting : UploadFunction :=
  fun _ _ _ => Fulfils (VObject [("success", VBool true)]).

Definition withCustom : UploadConfig :=
  {| accept := Absent; multiple := Absent; maxRetries := Absent;
     timeout := Absent; maxSize := Absent; customUploader := Value accepting |}.

(** Networks: one that is down, one that answers, one whose first request
    hangs. *)
Definition offline : Request -> nat -> Behaviour :=
  fun _ _ => Rejects (VError "offline").
Definition online : Request -> nat -> Behaviour :=
  fun _ _ => Fulfils (VObject [("ok", VBool true)]).
Definition hangsOnce : Request -> nat -> Behaviour :=
  fun _ n => match n with O => Stalls | S _ => Fulfils (VObject [("ok", VBool true)]) end.

(** Transfers that report nothing, and transfers that report being halfway. *)
Definition silent : nat -> list ProgressEvent := fun _ => [].
Definition halfway : nat -> list ProgressEvent :=
  fun _ => [{| lengthComputable := true; loaded := 50; total := 100 |}].

(** ** Sessions *)

(** What a caller, or the user through the file picker, can do to an
    instance. *)
Inductive Operation :=
| OpChange (files : option (list File))                  (* the input's change event *)
| OpSetDefaults (options : UploadOptions)                (* setDefaultUploadOptions *)
| OpUpload (file : File) (options : option UploadOptions). (* upload *)

Definition perform (network : Request -> nat -> Behaviour)
    (native : nat -> list ProgressEvent) (op : Operation) : UpM unit :=
  match op with
  | OpChange files => onChange files
  | OpSetDefaults options => setDefaultUploadOptions options
  | OpUpload file options => upload network native file options ;; mret tt
  end.

(** The operations of a session, one after the other, each run to its end. *)
Definition session (network : Request -> nat -> Behaviour)
    (native : nat -> list ProgressEvent) (ops : list Operation) : UpM unit :=
  forEach ops (perform network native).

(** Every entry of the cache sits under the key of its file, and the file
    passes the size filter of the configuration. *)
Definition cacheSound (c : UploadConfig) (cache : gmap string File) : Prop :=
  ∀ key f, cache !! key = Some f -> generateFileKey f = key ∧ withinLimit c f = true.

(** The characters of a string, and the separator of the key. *)
Definition chars (s : string) : list Ascii.ascii := String.list_ascii_of_string s.
Definition dash : Ascii.ascii := "-"%char.

(** ** More vocabulary for [upload] *)

(** The error attempt [k] fails with ([undefined] stands in when it does not
    fail). *)
Definition errorAt (network : Request -> nat -> Behaviour)
    (u : Uploader) (file : File) (opts : UploadOptions) (k : nat) : JsVal :=
  default VUndefined (failure (behaviourAt network u file opts k)).

(** The attempts [k], ..., [k + n - 1], each failed and retried. *)
Definition retriedAttempts (network : Request -> nat -> Behaviour)
    (u : Uploader) (file : File) (opts : UploadOptions) (k n : nat) : list Action :=
  flat_map (fun j => retriedAttempt u file opts (behaviourAt network u file opts j)
                       (errorAt network u file opts j) j)
    (seq k n).

(** The settlements of the returned promise, and the [success] and [error]
    events of a trace. *)
Definition is_settlement (a : Action) : bool :=
  match a with Resolve _ | Reject _ => true | _ => false end.
Definition settlements (t : list Action) : list Action :=
  filter (fun a => is_settlement a = true) t.
Definition is_success (ev : UploadEvent) : bool :=
  match ev with EvSuccess _ => true | _ => false end.
Definition successes (t : list Action) : list UploadEvent :=
  filter (fun ev => is_success ev = true) (events t).
Definition errors (t : list Action) : list UploadEvent :=
  filter (fun ev => is_error ev = true) (events t).

(** The requests handed to [fetch] in a trace. *)
Definition requests (t : list Action) : list Request :=
  omap (fun a => match a with Fetch req => Some req | _ => None end) t.

(** The sum of a list of delays. *)
Definition total_delay (l : list Z) : Z := foldr Z.add 0 l.

(** ** The event emitter *)

(** Node's [EventEmitter], as far as the class uses it: under each event
    name, the listeners registered with [on], in order of registration (a
    listener registered twice is listed twice).  A listener is named by a
    number; listeners only record what they are handed. *)
Definition listenersOf (emitter : gmap string (list nat)) (event : string) : list nat :=
  default [] (emitter !! event).

(** [on(event, listener)]: [this.eventEmitter.on(event, listener)]. *)
Definition on (event : string) (listener : nat) (emitter : gmap string (list nat))
  : gmap string (list nat) :=
  <[event := listenersOf emitter event ++ [listener]]> emitter.

(** [eventEmitter.emit(event, ev)]: every listener registered under [event]
    is called with [ev], in order; the result lists who was handed what. *)
Definition emit (emitter : gmap string (list nat)) (event : string) (ev : UploadEvent)
  : list (nat * UploadEvent) :=
  (fun listener => (listener, ev)) <$> listenersOf emitter event.

(** What the listeners are handed when the effects [t] happen: each
    [emitEvent] is [this.eventEmitter.emit('upload', {type, payload})]. *)
Definition deliveries (emitter : gmap string (list nat)) (t : list Action)
  : list (nat * UploadEvent) :=
  flat_map (emit emitter "upload") (events t).

(** What listener [l] was handed. *)
Definition handedTo (l : nat) (d : list (nat * UploadEvent)) : list UploadEvent :=
  snd <$> filter (fun p => fst p = l) d.

(** An instance with its emitter and the record of what its listeners were
    handed so far. *)
Record Client := {
  sys : Sys;
  eventEmitter : gmap string (list nat);
  received : list (nat * UploadEvent)
}.

Definition new_Client (c : UploadConfig) : Client :=
  {| sys := start (new_Uploader c); eventEmitter := ∅; received := [] |}.

(** What is done with a client: a listener is registered, or one of the
    operations of a session is performed. *)
Inductive Interaction :=
| Subscribe (event : string) (listener : nat)
| Operate (op : Operation).

Definition interact (network : Request -> nat -> Behaviour)
    (native : nat -> list ProgressEvent) (i : Client) (a : Interaction) : Client :=
  match a with
  | Subscribe event listener =>
      {| sys := sys i;
         eventEmitter := on event listener (eventEmitter i);
         received := received i |}
  | Operate op =>
      let r := perform network native op (sys i) in
      {| sys := state_of r;
         eventEmitter := eventEmitter i;
         received := received i ++ deliveries (eventEmitter i) (trace_of r) |}
  end.

Definition interactions (network : Request -> nat -> Behaviour)
    (native : nat -> list ProgressEvent) (l : list Interaction) (i : Client) : Client :=
  foldl (interact network native) i l.

(** Some batch selected during [ops] contains [f]. *)
Definition selectedIn (ops : list Operation) (f : File) : Prop :=
  ∃ files, OpChange (Some files) ∈ ops ∧ f ∈ files.

(** ** More sample inputs *)

Definition notes : File :=
  {| name := "notes.txt"; size := 12; lastModified := 1700000000900; handle := 4 |}.

(** No retries at all. *)
Definition noRetries : UploadConfig :=
  {| accept := Absent; multiple := Absent; maxRetries := Undefined;
     timeout := Absent; maxSize := Absent; customUploader := Absent |}.

(** Per-call options with headers of their own and an [undefined] url. *)
Definition perCall : UploadOptions :=
  {| url := Undefined; method := Absent;
     headers := Value [("X-Test", "test")]; data := Value [("album", VString "2024")] |}.

(** Instance defaults with an address and an authorization header. *)
Definition authorised : UploadOptions :=
  {| url := Value "/a"; method := Absent;
     headers := Value [("Authorization", "Bearer t")]; data := Absent |}.

(** How many times [l] is registered for the events the class emits. *)
Definition registrations (emitter : gmap string (list nat)) (l : nat) : nat :=
  length (filter (fun x => x = l) (listenersOf emitter "upload")).
(** * Properties *)

(** ** The size filter and the cache *)

Lemma forEach_cacheSet (l : list File) u xs :
  forEach l (fun file => cacheSet (generateFileKey file) file) {| this := u; xhrs := xs |}
  = (tt, {| this := withCache u (cacheAll l (fileCache u)); xhrs := xs |}, []).
Proof.
  revert u. induction l as [|a l IH]; intros u.
  - destruct u; reflexivity.
  - cbn [forEach]. run. rewrite IH. reflexivity.
Qed.

Lemma handleFileSelection_run (files : list File) u xs :
  handleFileSelection files {| this := u; xhrs := xs |}
  = (tt,
     {| this := withCache u (cacheAll (validFiles (config u) files) (fileCache u));
        xhrs := xs |},
     (if decide (length (validFiles (config u) files) ≠ length files)
      then [Emit (EvError (VString oversizeMessage))] else [])
     ++ [Emit (EvSelect (validFiles (config u) files))]).
Proof.
  unfold handleFileSelection. run.
  fold (validFiles (config u) files).
  destruct (decide (length (validFiles (config u) files) ≠ length files)); run;
    rewrite forEach_cacheSet; reflexivity.
Qed.

Lemma cacheAll_lookup (l : list File) (cache : gmap string File) (key : string) :
  cacheAll l cache !! key
  = match lastWithKey key l with Some f => Some f | None => cache !! key end.
Proof.
  unfold cacheAll, lastWithKey. revert cache.
  induction l as [|a l IH]; intros cache; [reflexivity|].
  cbn [foldl]. rewrite IH. rewrite filter_cons.
  destruct (decide (generateFileKey a = key)) as [<-|Hne].
  - rewrite lookup_insert_eq, last_cons.
    by destruct (last (filter _ l)).
  - rewrite lookup_insert_ne by done. reflexivity.
Qed.

Lemma lastWithKey_elem key l f :
  lastWithKey key l = Some f -> f ∈ l ∧ generateFileKey f = key.
Proof.
  unfold lastWithKey. intros H.
  apply last_Some in H as [l' H].
  assert (f ∈ filter (fun file => generateFileKey file = key) l) as Hin
    by (rewrite H; set_solver).
  apply list_elem_of_filter in Hin. tauto.
Qed.

Lemma lastWithKey_is_Some key l f :
  f ∈ l -> generateFileKey f = key -> is_Some (lastWithKey key l).
Proof.
  intros Hin Hk. unfold lastWithKey.
  destruct (last _) eqn:E; [eauto|].
  apply last_None in E.
  assert (f ∈ filter (fun file => generateFileKey file = key) l) as Hf
    by (apply list_elem_of_filter; done).
  rewrite E in Hf. inversion Hf.
Qed.

(** With pairwise distinct keys, the last file under a key is the only one. *)
Lemma lastWithKey_NoDup l f :
  NoDup (generateFileKey <$> l) -> f ∈ l ->
  lastWithKey (generateFileKey f) l = Some f.
Proof.
  intros Hnd Hin.
  destruct (lastWithKey_is_Some (generateFileKey f) l f Hin eq_refl) as [g Hg].
  rewrite Hg. f_equal.
  destruct (lastWithKey_elem _ _ _ Hg) as [Hgin Hgk].
  apply list_elem_of_lookup in Hin as [i Hi].
  apply list_elem_of_lookup in Hgin as [j Hj].
  assert (i = j) as ->.
  { eapply NoDup_lookup; [exact Hnd| |].
    - rewrite list_lookup_fmap, Hi. reflexivity.
    - rewrite list_lookup_fmap, Hj. cbn. by rewrite Hgk. }
  congruence.
Qed.

Lemma atOrUnderMax_withinLimit c file :
  atOrUnderMax c file -> withinLimit c file = true.
Proof.
  unfold atOrUnderMax, withinLimit, sizeLimit. intros H.
  destruct (read (maxSize c)) as [m|]; [|reflexivity].
  destruct (decide (m = 0)); [reflexivity|].
  apply bool_decide_eq_true. by apply H.
Qed.

Lemma select_events_of_selection (c : UploadConfig) (files : list File) :
  filter (fun ev => is_select ev = true)
    (events ((if decide (length (validFiles c files) ≠ length files)
              then [Emit (EvError (VString oversizeMessage))] else [])
             ++ [Emit (EvSelect (validFiles c files))]))
  = [EvSelect (validFiles c files)].
Proof. by destruct (decide _). Qed.

Lemma filter_swap {A} (P Q : A -> Prop) `{!∀ x, Decision (P x)} `{!∀ x, Decision (Q x)}
    (l : list A) :
  filter P (filter Q l) = filter Q (filter P l).
Proof.
  induction l as [|a l IH]; [reflexivity|].
  rewrite !filter_cons.
  destruct (decide (Q a)), (decide (P a)); rewrite ?filter_cons;
    repeat case_decide; try done; by rewrite IH.
Qed.

Lemma lastWithKey_valid c key files f :
  lastWithKey key files = Some f -> withinLimit c f = true ->
  lastWithKey key (validFiles c files) = Some f.
Proof.
  unfold lastWithKey, validFiles. intros Hlast Hok.
  apply last_Some in Hlast as [l' Hl'].
  rewrite filter_swap, Hl', filter_app, filter_cons_True by done.
  apply last_Some. eauto.
Qed.

Lemma entriesUnder_lookup key (cache : gmap string File) f :
  cache !! key = Some f -> entriesUnder key cache = [(key, f)].
Proof.
  intros Hk. unfold entriesUnder.
  assert (NoDup (filter (fun kv : string * File => fst kv = key) (map_to_list cache)))
    as Hnd by (apply NoDup_filter, NoDup_map_to_list).
  assert (∀ kv, kv ∈ filter (fun kv : string * File => fst kv = key) (map_to_list cache)
                ↔ kv = (key, f)) as Hel.
  { intros [k v]. rewrite list_elem_of_filter, elem_of_map_to_list. cbn. split.
    - intros [-> Hv]. congruence.
    - intros [= -> ->]. done. }
  destruct (filter _ (map_to_list cache)) as [|a [|b l]].
  - exfalso. eapply not_elem_of_nil, (Hel (key, f)). reflexivity.
  - f_equal. apply Hel. left.
  - exfalso. apply NoDup_cons in Hnd as [Hnot _]. apply Hnot.
    assert (a = (key, f)) as -> by (apply Hel; left).
    assert (b = (key, f)) as -> by (apply Hel; right; left).
    left.
Qed.

(** ** C3: files within the maximum are cached and selected *)

(** C3.  Every batch produces exactly one [select] event, the last effect of
    the call, also when its payload is empty.  Every file of the batch at or
    under the configured maximum is in that payload, and [fileCache.set] was
    called for it: the cache holds, under the file's key, a file of the
    payload with that key, namely the last one of the batch (the file itself
    when it is the last or only one with its key). *)
Theorem selection_keeps_files_within_max (s : Sys) (files : list File) :
  let r := handleFileSelection files s in
  ∃ payload,
    filter (fun ev => is_select ev = true) (events (trace_of r)) = [EvSelect payload] ∧
    last (trace_of r) = Some (Emit (EvSelect payload)) ∧
    ∀ f, f ∈ files -> atOrUnderMax (config (this s)) f ->
      f ∈ payload ∧
      (∃ g, fileCache (final r) !! generateFileKey f = Some g ∧
            g ∈ payload ∧ generateFileKey g = generateFileKey f) ∧
      (lastWithKey (generateFileKey f) files = Some f ->
       fileCache (final r) !! generateFileKey f = Some f).
Proof.
  destruct s as [u xs]. cbn zeta. rewrite handleFileSelection_run.
  exists (validFiles (config u) files).
  unfold trace_of, final. cbn [fst snd this].
  split; [apply select_events_of_selection|].
  split; [by rewrite last_snoc|].
  intros f Hin Hmax.
  pose proof (atOrUnderMax_withinLimit _ _ Hmax) as Hok.
  assert (f ∈ validFiles (config u) files) as Hv
    by (apply list_elem_of_filter; done).
  split; [exact Hv|].
  cbn [withCache fileCache]. rewrite cacheAll_lookup. split.
  - destruct (lastWithKey_is_Some _ _ _ Hv eq_refl) as [g Hg].
    rewrite Hg. exists g. split; [reflexivity|].
    by apply lastWithKey_elem in Hg.
  - intros Hlast. by rewrite (lastWithKey_valid _ _ _ _ Hlast Hok).
Qed.

(** ** C4: files above the limit are dropped and reported once *)

Lemma exceedsLimit_withinLimit c f :
  exceedsLimit c f -> withinLimit c f = false.
Proof.
  intros (m & Hm & Hne & Hlt). unfold withinLimit, sizeLimit. rewrite Hm.
  destruct (decide (m = 0)); [done|].
  apply bool_decide_eq_false. lia.
Qed.

Lemma selected_selection (c : UploadConfig) (files : list File) (f : File) :
  selected ((if decide (length (validFiles c files) ≠ length files)
             then [Emit (EvError (VString oversizeMessage))] else [])
            ++ [Emit (EvSelect (validFiles c files))]) f
  -> f ∈ validFiles c files.
Proof.
  intros (payload & Hev & Hin).
  destruct (decide _); cbn in Hev.
  - apply elem_of_cons in Hev as [[=]|Hev].
    apply list_elem_of_singleton in Hev as [= ->]. exact Hin.
  - apply list_elem_of_singleton in Hev as [= ->]. exact Hin.
Qed.

(** C4, amended.  A file of the batch above the limit of the filter (a
    configured maximum other than zero) is in no [select] payload and is not
    put into the cache; the batch then produces exactly one [error] event,
    carrying the fixed message, and the call runs to its end, the [select]
    event. *)
Theorem selection_drops_files_over_limit (s : Sys) (files : list File) (f : File) :
  f ∈ files -> exceedsLimit (config (this s)) f ->
  let r := handleFileSelection files s in
  keptOut s files f ∧
  filter (fun ev => is_error ev = true) (events (trace_of r))
    = [EvError (VString oversizeMessage)] ∧
  ∃ payload, last (trace_of r) = Some (Emit (EvSelect payload)).
Proof.
  intros Hin Hex. pose proof (exceedsLimit_withinLimit _ _ Hex) as Hout.
  unfold keptOut. destruct s as [u xs]. cbn zeta. rewrite handleFileSelection_run.
  unfold trace_of, final. cbn [fst snd this] in *.
  assert (f ∉ validFiles (config u) files) as Hnv.
  { intros Hv. apply list_elem_of_filter in Hv as [Hv _]. congruence. }
  repeat split.
  - intros Hsel. by apply selected_selection in Hsel.
  - intros key. cbn [withCache fileCache]. rewrite cacheAll_lookup.
    destruct (lastWithKey key _) as [g|] eqn:Hg; [|done].
    intros [= ->]. by apply lastWithKey_elem in Hg as [Hg _].
  - destruct (decide _) as [_|Heq]; [reflexivity|].
    exfalso. apply Heq.
    assert (length (validFiles (config u) files) < length files)%nat; [|lia].
    apply (length_filter_lt _ _ f); [done|congruence].
  - eexists. by rewrite last_snoc.
Qed.

(** ** C7: the key and reselection *)

(** The key depends on the name, the size and the modification time only. *)
Lemma generateFileKey_deterministic (f g : File) :
  name f = name g -> size f = size g -> lastModified f = lastModified g ->
  generateFileKey f = generateFileKey g.
Proof. unfold generateFileKey. by intros -> -> ->. Qed.

(** C7.  Two files with the same name, size and modification time have the
    same key.  When such files are selected one after the other (each as the
    last file of its batch with that key, as in a batch of its own), the
    cache first holds the first file under the key, then the second, and
    after the second selection it holds exactly one entry under the key. *)
Theorem reselection_overwrites (s : Sys) (files1 files2 : list File) (f g : File) :
  name f = name g -> size f = size g -> lastModified f = lastModified g ->
  withinLimit (config (this s)) f = true ->
  lastWithKey (generateFileKey f) files1 = Some f ->
  lastWithKey (generateFileKey g) files2 = Some g ->
  let s1 := state_of (handleFileSelection files1 s) in
  let s2 := state_of (handleFileSelection files2 s1) in
  generateFileKey f = generateFileKey g ∧
  fileCache (this s1) !! generateFileKey f = Some f ∧
  fileCache (this s2) !! generateFileKey f = Some g ∧
  entriesUnder (generateFileKey f) (fileCache (this s2)) = [(generateFileKey f, g)].
Proof.
  intros Hn Hs Hm Hok H1 H2.
  pose proof (generateFileKey_deterministic f g Hn Hs Hm) as Hk.
  assert (withinLimit (config (this s)) g = true) as Hokg.
  { revert Hok. unfold withinLimit. by rewrite Hs. }
  destruct s as [u xs]. cbn zeta.
  rewrite handleFileSelection_run. unfold state_of. cbn [fst snd].
  rewrite handleFileSelection_run. cbn [fst snd this withCache fileCache config] in *.
  assert (cacheAll (validFiles (config u) files2)
            (cacheAll (validFiles (config u) files1) (fileCache u))
          !! generateFileKey f = Some g) as Hg.
  { rewrite cacheAll_lookup, Hk.
    by rewrite (lastWithKey_valid _ _ _ _ H2 Hokg). }
  split; [exact Hk|]. split; [|split].
  - rewrite cacheAll_lookup. by rewrite (lastWithKey_valid _ _ _ _ H1 Hok).
  - exact Hg.
  - by apply entriesUnder_lookup.
Qed.

(** ** The upload loop, one attempt at a time *)

Section UploadRuns.

Variable network : Request -> nat -> Behaviour.
Variable native : nat -> list ProgressEvent.
Variable file : File.
Variable opts : UploadOptions.

Local Abbreviation attempt fuel k :=
  (attemptUpload network native fuel file (generateFileKey file) opts k).
Local Abbreviation beh u k := (behaviourAt network u file opts k).

Lemma deliverProgress_unsent evs u xs :
  unsent xs ->
  deliverProgress evs {| this := u; xhrs := xs |} = (tt, {| this := u; xhrs := xs |}, []).
Proof.
  intros Hxs. unfold deliverProgress. run.
  assert (flat_map (dispatchProgress evs) xs = []) as ->; [|reflexivity].
  induction Hxs as [|x xs Hx _ IH]; [reflexivity|].
  cbn. rewrite IH. unfold dispatchProgress. by rewrite Hx.
Qed.

Lemma uploadFunction_run u xs k :
  uploadFunction network file opts k {| this := u; xhrs := xs |}
  = (beh u k, {| this := u; xhrs := xs |}, [invocation u file opts]).
Proof.
  unfold uploadFunction, behaviourAt, invocation, defaultUploader. run.
  by destruct (read (customUploader (config u))).
Qed.

Lemma race_run u xs k :
  unsent xs ->
  race network native file opts k {| this := u; xhrs := xs |}
  = (match beh u k with
     | Fulfils v => inl v
     | Throws e | Rejects e => inr e
     | Stalls => inr timeoutError
     end,
     {| this := u; xhrs := xs |},
     raceTrace u file opts (beh u k)).
Proof.
  intros Hxs. unfold race, raceTrace.
  unfold mbind at 1, UpM_bind at 1. rewrite uploadFunction_run.
  destruct (beh u k); run; rewrite ?deliverProgress_unsent by done; reflexivity.
Qed.

Lemma attempt_success u xs fuel k v :
  unsent xs -> beh u k = Fulfils v ->
  attempt (S fuel) k {| this := u; xhrs := xs |}
  = (Some (Resolved v),
     {| this := withCache u (delete (generateFileKey file) (fileCache u)); xhrs := xs |},
     successfulAttempt u file opts (beh u k) v).
Proof.
  intros Hxs Hb. cbn [attemptUpload].
  unfold mbind at 1, UpM_bind at 1. rewrite race_run by done.
  unfold successfulAttempt. rewrite Hb. run. reflexivity.
Qed.

Lemma attempt_retry u xs fuel k e :
  unsent xs -> failure (beh u k) = Some e -> mayRetry (config u) k = true ->
  attempt (S fuel) k {| this := u; xhrs := xs |}
  = (let '(r, s', t) := attempt fuel (S k) {| this := u; xhrs := xs |} in
     (r, s', retriedAttempt u file opts (beh u k) e k ++ t)).
Proof.
  intros Hxs Hb Hr. cbn [attemptUpload].
  unfold mbind at 1, UpM_bind at 1. rewrite race_run by done.
  unfold retriedAttempt.
  destruct (beh u k); cbn in Hb; simplify_eq; run; rewrite Hr; run;
    destruct (attemptUpload _ _ _ _ _ _ _ _) as [[r s'] t];
    by rewrite <- ?app_assoc.
Qed.

Lemma attempt_giveup u xs fuel k e :
  unsent xs -> failure (beh u k) = Some e -> mayRetry (config u) k = false ->
  attempt (S fuel) k {| this := u; xhrs := xs |}
  = (Some (Rejected e), {| this := u; xhrs := xs |},
     lastAttempt u file opts (beh u k) e).
Proof.
  intros Hxs Hb Hr. cbn [attemptUpload].
  unfold mbind at 1, UpM_bind at 1. rewrite race_run by done.
  unfold lastAttempt.
  destruct (beh u k); cbn in Hb; simplify_eq; run; rewrite Hr; reflexivity.
Qed.

End UploadRuns.

Lemma mayRetry_budget c k :
  mayRetry c k = bool_decide (k < retryBudget c)%nat.
Proof.
  unfold mayRetry, retryBudget. destruct (read (maxRetries c)) as [m|].
  - apply bool_decide_ext. lia.
  - symmetry. apply bool_decide_eq_false. lia.
Qed.

Section UploadLoop.

Variable network : Request -> nat -> Behaviour.
Variable native : nat -> list ProgressEvent.
Variable file : File.
Variable opts : UploadOptions.
Variable u : Uploader.
Variable xs : list Xhr.
Hypothesis Hxs : unsent xs.

Local Abbreviation attempt fuel k :=
  (attemptUpload network native fuel file (generateFileKey file) opts k
     {| this := u; xhrs := xs |}).
Local Abbreviation beh k := (behaviourAt network u file opts k).

(** The three ways an attempt can go. *)
Lemma attempt_cases fuel k :
  (∃ v, beh k = Fulfils v ∧
        attempt (S fuel) k
        = (Some (Resolved v),
           {| this := withCache u (delete (generateFileKey file) (fileCache u));
              xhrs := xs |},
           successfulAttempt u file opts (beh k) v))
  ∨ (∃ e, failure (beh k) = Some e ∧ (k < retryBudget (config u))%nat ∧
          attempt (S fuel) k
          = (let '(r, s', t) := attempt fuel (S k) in
             (r, s', retriedAttempt u file opts (beh k) e k ++ t)))
  ∨ (∃ e, failure (beh k) = Some e ∧ (retryBudget (config u) ≤ k)%nat ∧
          attempt (S fuel) k
          = (Some (Rejected e), {| this := u; xhrs := xs |},
             lastAttempt u file opts (beh k) e)).
Proof.
  destruct (failure (beh k)) as [e|] eqn:Hf.
  - right. destruct (mayRetry (config u) k) eqn:Hr.
    + left. exists e. split; [done|]. split.
      * rewrite mayRetry_budget in Hr. by apply bool_decide_eq_true in Hr.
      * by apply attempt_retry.
    + right. exists e. split; [done|]. split.
      * rewrite mayRetry_budget in Hr. apply bool_decide_eq_false in Hr. lia.
      * by apply attempt_giveup.
  - left. destruct (beh k) as [| v | |] eqn:Hb; try discriminate.
    exists v. split; [done|]. rewrite <- Hb. by apply attempt_success.
Qed.

(** Attempts [k], ..., [k + n - 1] fail and are retried. *)
Lemma attempts_retried (err : nat -> JsVal) n : ∀ fuel k,
  (∀ j, (k ≤ j < k + n)%nat -> failure (beh j) = Some (err j)) ->
  (k + n ≤ retryBudget (config u))%nat ->
  attempt (n + fuel) k
  = (let '(r, s', t) := attempt fuel (k + n) in
     (r, s',
      flat_map (fun j => retriedAttempt u file opts (beh j) (err j) j) (seq k n) ++ t)).
Proof.
  induction n as [|n IH]; intros fuel k Herr Hle.
  - cbn. rewrite Nat.add_0_r. by destruct (attempt fuel k) as [[r s'] t].
  - cbn [Nat.add seq flat_map].
    rewrite (attempt_retry _ _ _ _ _ _ _ _ (err k)); [|done|apply Herr; lia|].
    2:{ rewrite mayRetry_budget. apply bool_decide_eq_true. lia. }
    rewrite IH; [|intros j Hj; apply Herr; lia|lia].
    replace (S k + n)%nat with (k + S n)%nat by lia.
    destruct (attempt fuel (k + S n)) as [[r s'] t].
    by rewrite <- app_assoc.
Qed.

(** Every effect of the loop is one of [uploadAction]. *)
Lemma attempt_alphabet fuel : ∀ k,
  Forall (uploadAction u file opts) (trace_of (attempt fuel k)).
Proof.
  assert (∀ b, Forall (uploadAction u file opts) (raceTrace u file opts b)) as Hrace.
  { intros b. unfold raceTrace. destruct b; repeat constructor. }
  induction fuel as [|fuel IH]; intros k; [constructor|].
  destruct (attempt_cases fuel k) as [(v & _ & ->)|[(e & _ & _ & ->)|(e & _ & _ & ->)]].
  - apply Forall_app. split; [apply Hrace|repeat constructor].
  - specialize (IH (S k)). destruct (attempt fuel (S k)) as [[r s'] t].
    unfold trace_of in *. cbn [snd] in *.
    apply Forall_app. split; [|exact IH].
    apply Forall_app. split; [apply Hrace|repeat constructor].
  - apply Forall_app. split; [apply Hrace|repeat constructor].
Qed.

(** The loop ends: with more fuel than retries left, it settles the promise. *)
Lemma attempt_settles fuel : ∀ k,
  (retryBudget (config u) ≤ k + fuel)%nat ->
  is_Some (result_of (attempt (S fuel) k)).
Proof.
  induction fuel as [|fuel IH]; intros k Hle.
  - destruct (attempt_cases 0 k)
      as [(v & _ & ->)|[(e & _ & Hk & _)|(e & _ & _ & ->)]];
      [by eexists|lia|by eexists].
  - destruct (attempt_cases (S fuel) k)
      as [(v & _ & ->)|[(e & _ & _ & ->)|(e & _ & _ & ->)]];
      [by eexists| |by eexists].
    specialize (IH (S k) ltac:(lia)).
    by destruct (attempt (S fuel) (S k)) as [[r s'] t].
Qed.

(** The loop changes the instance only by the [delete] of a success. *)
Lemma attempt_state fuel : ∀ k,
  state_of (attempt fuel k)
  = match result_of (attempt fuel k) with
    | Some (Resolved _) =>
        {| this := withCache u (delete (generateFileKey file) (fileCache u));
           xhrs := xs |}
    | _ => {| this := u; xhrs := xs |}
    end.
Proof.
  induction fuel as [|fuel IH]; intros k; [reflexivity|].
  destruct (attempt_cases fuel k) as [(v & _ & ->)|[(e & _ & _ & ->)|(e & _ & _ & ->)]];
    [reflexivity| |reflexivity].
  specialize (IH (S k)). by destruct (attempt fuel (S k)) as [[r s'] t].
Qed.

(** A rejection means every attempt up to the budget failed; the promise is
    rejected with the error of the last one. *)
Lemma attempt_rejected fuel : ∀ k e,
  result_of (attempt fuel k) = Some (Rejected e) ->
  (∀ j, (k ≤ j ≤ retryBudget (config u))%nat -> is_Some (failure (beh j))) ∧
  (k ≤ retryBudget (config u) -> failure (beh (retryBudget (config u))) = Some e)%nat.
Proof.
  induction fuel as [|fuel IH]; intros k e; [discriminate|].
  destruct (attempt_cases fuel k)
    as [(v & _ & ->)|[(e' & Hf & Hk & ->)|(e' & Hf & Hk & ->)]].
  - discriminate.
  - specialize (IH (S k) e). destruct (attempt fuel (S k)) as [[r s'] t].
    unfold result_of in *. cbn [fst] in *. intros Hr.
    destruct (IH Hr) as [Hall Hlast]. split.
    + intros j Hj. destruct (decide (j = k)) as [->|]; [by rewrite Hf|].
      apply Hall. lia.
    + intros _. apply Hlast. lia.
  - unfold result_of. cbn [fst]. intros [= ->]. split.
    + intros j Hj. assert (j = k) as -> by lia. by rewrite Hf.
    + intros Hle. assert (retryBudget (config u) = k) as -> by lia. exact Hf.
Qed.

End UploadLoop.

(** ** Whole [upload] calls *)

Lemma unsent_progressXhr xs : unsent xs -> unsent (xs ++ [progressXhr]).
Proof. intros H. apply Forall_app. split; [done|]. by repeat constructor. Qed.

(** [upload] is the loop, run with enough fuel, on the state extended with
    the progress object. *)
Lemma upload_unfold network native file options u xs :
  upload network native file options {| this := u; xhrs := xs |}
  = attemptUpload network native (S (retryBudget (config u))) file
      (generateFileKey file) (spreadOptional (defaultUploadOptions u) options) 0
      {| this := u; xhrs := xs ++ [progressXhr] |}.
Proof.
  unfold upload, uploadWithProgress. run. fold progressXhr.
  by destruct (attemptUpload _ _ _ _ _ _ _ _) as [[r s'] t].
Qed.

Lemma is_call_invocation u file opts : is_call (invocation u file opts) = true.
Proof. unfold invocation. by destruct (read _). Qed.

Lemma calls_raceTrace u file opts b :
  calls (raceTrace u file opts b) = [invocation u file opts].
Proof.
  unfold calls, raceTrace.
  rewrite filter_cons_True by apply is_call_invocation. by destruct b.
Qed.

Lemma events_raceTrace u file opts b : events (raceTrace u file opts b) = [].
Proof. unfold raceTrace, invocation. by destruct (read _), b. Qed.

Lemma waits_raceTrace u file opts b : waits (raceTrace u file opts b) = [].
Proof. unfold raceTrace, invocation. by destruct (read _), b. Qed.

Lemma calls_app t1 t2 : calls (t1 ++ t2) = calls t1 ++ calls t2.
Proof. apply filter_app. Qed.

Lemma events_app t1 t2 : events (t1 ++ t2) = events t1 ++ events t2.
Proof. apply omap_app. Qed.

Lemma waits_app t1 t2 : waits (t1 ++ t2) = waits t1 ++ waits t2.
Proof. apply omap_app. Qed.

Lemma retries_app t1 t2 : retries (t1 ++ t2) = retries t1 ++ retries t2.
Proof. unfold retries. by rewrite events_app, filter_app. Qed.

Section RetriedAttempts.

Variable u : Uploader.
Variable file : File.
Variable opts : UploadOptions.
Variable beh : nat -> Behaviour.
Variable err : nat -> JsVal.

Local Abbreviation blocks k n :=
  (flat_map (fun j => retriedAttempt u file opts (beh j) (err j) j) (seq k n)).

Lemma calls_retried n : ∀ k, length (calls (blocks k n)) = n.
Proof.
  induction n as [|n IH]; intros k; [reflexivity|].
  cbn [seq flat_map]. unfold retriedAttempt at 1.
  rewrite !calls_app, calls_raceTrace, !length_app, IH. reflexivity.
Qed.

Lemma retries_retried n : ∀ k,
  retries (blocks k n) = (fun j => EvRetry j (err (pred j))) <$> seq (S k) n.
Proof.
  induction n as [|n IH]; intros k; [reflexivity|].
  cbn [seq flat_map fmap list_fmap]. unfold retriedAttempt at 1.
  rewrite !retries_app, IH. unfold retries at 1.
  by rewrite events_raceTrace.
Qed.

Lemma waits_retried n : ∀ k,
  waits (blocks k n) = (fun j => 1000 * Z.of_nat j) <$> seq (S k) n.
Proof.
  induction n as [|n IH]; intros k; [reflexivity|].
  cbn [seq flat_map fmap list_fmap]. unfold retriedAttempt at 1.
  rewrite !waits_app, IH, waits_raceTrace. reflexivity.
Qed.

End RetriedAttempts.

(** ** C1: an upload that fails on every attempt *)

(** C1.  With [maxRetries = N] and an upload function that fails on each of
    the attempts 0, ..., N with errors [err 0], ..., [err N], [upload] rejects
    the promise with [err N].  Its effects are, for k = 1..N in turn: the call
    of the upload function, the [error] event, the [retry] event
    [{attempt: k, error: err (k-1)}] and a wait of [1000 * k] ms; then the
    last call, its [error] event and the rejection.  So there are N + 1 calls,
    N [retry] events and N waits. *)
Theorem always_failing_upload network native (u : Uploader) (file : File)
    (options : option UploadOptions) (N : nat) (err : nat -> JsVal) :
  read (maxRetries (config u)) = Some (Z.of_nat N) ->
  (∀ k, (k ≤ N)%nat ->
     failure (behaviourAt network u file
                (spreadOptional (defaultUploadOptions u) options) k) = Some (err k)) ->
  let merged := spreadOptional (defaultUploadOptions u) options in
  let beh := behaviourAt network u file merged in
  let r := upload network native file options (start u) in
  result_of r = Some (Rejected (err N)) ∧
  trace_of r
  = flat_map (fun k => retriedAttempt u file merged (beh k) (err k) k) (seq 0 N)
    ++ lastAttempt u file merged (beh N) (err N) ∧
  length (calls (trace_of r)) = S N ∧
  retries (trace_of r) = (fun k => EvRetry k (err (pred k))) <$> seq 1 N ∧
  waits (trace_of r) = (fun k => 1000 * Z.of_nat k) <$> seq 1 N.
Proof.
  intros HN Herr merged beh r.
  assert (retryBudget (config u) = N) as Hb.
  { unfold retryBudget. rewrite HN. lia. }
  assert (unsent ([] ++ [progressXhr])) as Hxs by (apply unsent_progressXhr; constructor).
  assert (r = (Some (Rejected (err N)), {| this := u; xhrs := [] ++ [progressXhr] |},
               flat_map (fun k => retriedAttempt u file merged (beh k) (err k) k) (seq 0 N)
               ++ lastAttempt u file merged (beh N) (err N))) as ->.
  { subst r. unfold start. rewrite upload_unfold, Hb.
    replace (S N) with (N + 1)%nat by lia.
    rewrite (attempts_retried _ _ _ _ _ _ Hxs err); [|intros j Hj; apply Herr; lia|lia].
    cbn [Nat.add].
    rewrite (attempt_giveup _ _ _ _ _ _ _ _ (err N)); [done|done|apply Herr; lia|].
    rewrite mayRetry_budget, Hb. apply bool_decide_eq_false. lia. }
  unfold result_of, trace_of. cbn [fst snd].
  split; [reflexivity|]. split; [reflexivity|].
  unfold lastAttempt. split; [|split].
  - rewrite !calls_app, !length_app, calls_retried, calls_raceTrace.
    change (calls [Emit (EvError (err N)); Reject (err N)]) with (@nil Action).
    cbn [length]. lia.
  - rewrite !retries_app, retries_retried. unfold retries at 1 2.
    rewrite events_raceTrace. cbn. by rewrite app_nil_r.
  - rewrite !waits_app, waits_retried, waits_raceTrace. cbn. by rewrite app_nil_r.
Qed.

Section UploadCall.

Variable network : Request -> nat -> Behaviour.
Variable native : nat -> list ProgressEvent.
Variable file : File.
Variable options : option UploadOptions.
Variable u : Uploader.

Local Abbreviation merged := (spreadOptional (defaultUploadOptions u) options).
Local Abbreviation r := (upload network native file options (start u)).
Local Abbreviation beh k := (behaviourAt network u file merged k).

Lemma unsent_start : unsent ([] ++ [progressXhr]).
Proof. apply unsent_progressXhr. constructor. Qed.

Lemma upload_alphabet : Forall (uploadAction u file merged) (trace_of r).
Proof.
  unfold start. rewrite upload_unfold. apply attempt_alphabet, unsent_start.
Qed.

(** [upload] always settles the promise it returns. *)
Lemma upload_settles : is_Some (result_of r).
Proof.
  unfold start. rewrite upload_unfold.
  apply attempt_settles; [apply unsent_start|lia].
Qed.

Lemma upload_state :
  final r = match result_of r with
            | Some (Resolved _) => withCache u (delete (generateFileKey file) (fileCache u))
            | _ => u
            end.
Proof.
  unfold start, final. rewrite upload_unfold.
  pose proof (attempt_state network native file merged u _ unsent_start
                (S (retryBudget (config u))) 0) as H.
  unfold state_of in H. rewrite H.
  by destruct (result_of _) as [[]|].
Qed.

Lemma upload_rejected e :
  result_of r = Some (Rejected e) ->
  (∀ j, (j ≤ retryBudget (config u))%nat -> is_Some (failure (beh j))) ∧
  failure (beh (retryBudget (config u))) = Some e.
Proof.
  unfold start. rewrite upload_unfold. intros Hr.
  destruct (attempt_rejected network native file merged u _ unsent_start _ _ _ Hr)
    as [Hall Hlast].
  split; [intros j Hj; apply Hall; lia|apply Hlast; lia].
Qed.

(** The first effect of [upload] is the call of the upload function. *)
Lemma upload_first_call : ∃ t, trace_of r = invocation u file merged :: t.
Proof.
  unfold start. rewrite upload_unfold.
  destruct (attempt_cases network native file merged u _ unsent_start
              (retryBudget (config u)) 0)
    as [(v & _ & ->)|[(e & _ & _ & ->)|(e & _ & _ & ->)]].
  - eexists. reflexivity.
  - destruct (attemptUpload _ _ _ _ _ _ _ _) as [[r' s'] t]. eexists. reflexivity.
  - eexists. reflexivity.
Qed.

Lemma upload_calls a : a ∈ calls (trace_of r) -> a = invocation u file merged.
Proof.
  intros Ha. apply list_elem_of_filter in Ha as [Hc Ha].
  pose proof upload_alphabet as Hall. rewrite Forall_forall in Hall.
  destruct (Hall a Ha); try discriminate. reflexivity.
Qed.

Lemma upload_no_progress : progressEvents (trace_of r) = [].
Proof.
  unfold progressEvents.
  pose proof upload_alphabet as Hall.
  induction Hall as [|a t Ha _ IH]; [reflexivity|].
  destruct Ha; cbn; try exact IH;
    try (rewrite filter_cons_False by (cbn; congruence); exact IH).
  unfold invocation. destruct (read _); exact IH.
Qed.

End UploadCall.

(** ** C5: merged options *)

Lemma spread_overrides {A} (base over : field A) :
  overrides base over (spread base over).
Proof. unfold overrides. by destruct over. Qed.

Lemma spreadOptions_shallowMerge base over :
  shallowMerge base over (spreadOptions base over).
Proof. repeat split; apply spread_overrides. Qed.

Lemma spreadOptional_None base : spreadOptional base None = base.
Proof. by destruct base. Qed.

Lemma setDefaultUploadOptions_run o u xs :
  setDefaultUploadOptions o {| this := u; xhrs := xs |}
  = (tt,
     {| this := {| config := config u; fileCache := fileCache u;
                   inputElement := inputElement u;
                   defaultUploadOptions := spreadOptions (defaultUploadOptions u) o |};
        xhrs := xs |},
     []).
Proof. reflexivity. Qed.

Lemma address_invocation u file opts :
  read (url opts) = Some "/a" -> address (invocation u file opts) = Some "/a".
Proof.
  intros H. unfold invocation, address.
  destruct (read (customUploader _)); [done|].
  cbn. unfold targetUrl. cbn. by rewrite H.
Qed.

(** C5.  The upload function is called with the per-call options laid over
    the defaults of the instance, per-call properties winning (the defaults
    themselves when there are no per-call options).
    [setDefaultUploadOptions] lays its argument over the defaults in the same
    way and changes nothing else, and the next [upload] reads the result:
    after [setDefaultUploadOptions({url: '/a'})], an [upload] without per-call
    options starts by calling the upload function, and every call it makes
    has the address ['/a']. *)
Theorem upload_options_merged network native (u : Uploader) (file : File)
    (options : option UploadOptions) (defaults : UploadOptions) :
  let r := upload network native file options (start u) in
  (∃ merged t,
     trace_of r = invocation u file merged :: t ∧
     (∀ a, a ∈ calls (trace_of r) -> a = invocation u file merged) ∧
     match options with
     | Some o => shallowMerge (defaultUploadOptions u) o merged
     | None => merged = defaultUploadOptions u
     end) ∧
  (let s' := state_of (setDefaultUploadOptions defaults (start u)) in
   shallowMerge (defaultUploadOptions u) defaults (defaultUploadOptions (this s')) ∧
   config (this s') = config u ∧ fileCache (this s') = fileCache u) ∧
  (let a := {| url := Value "/a"; method := Absent; headers := Absent; data := Absent |} in
   let r' := (setDefaultUploadOptions a ;; upload network native file None) (start u) in
   (∃ first t, trace_of r' = first :: t ∧ address first = Some "/a") ∧
   ∀ c, c ∈ calls (trace_of r') -> address c = Some "/a").
Proof.
  cbn zeta. split; [|split].
  - exists (spreadOptional (defaultUploadOptions u) options).
    destruct (upload_first_call network native file options u) as [t Ht].
    exists t. split; [exact Ht|]. split; [apply upload_calls|].
    destruct options as [o|]; [apply spreadOptions_shallowMerge|apply spreadOptional_None].
  - unfold start. rewrite setDefaultUploadOptions_run. unfold state_of. cbn.
    split; [apply spreadOptions_shallowMerge|done].
  - unfold mbind, UpM_bind, start. rewrite setDefaultUploadOptions_run.
    set (u' := {| config := config u; fileCache := fileCache u;
                  inputElement := inputElement u;
                  defaultUploadOptions := _ |}).
    change {| this := u'; xhrs := [] |} with (start u').
    destruct (upload network native file None (start u')) as [[res s'] t] eqn:E.
    assert (t = trace_of (upload network native file None (start u'))) as ->
      by (by rewrite E).
    unfold trace_of at 1 3. cbn [snd app].
    assert (read (url (spreadOptional (defaultUploadOptions u') None)) = Some "/a")
      as Hurl by reflexivity.
    split.
    + destruct (upload_first_call network native file None u') as [t' Ht'].
      rewrite Ht'. eexists _, _. split; [reflexivity|].
      by apply address_invocation.
    + intros c Hc. apply upload_calls in Hc as ->. by apply address_invocation.
Qed.

(** ** C6: a custom upload function that succeeds at once *)

(** C6.  With a custom upload function configured whose first call is
    fulfilled with [v] before the timer fires, [upload] calls it once, with
    the file and the merged options, emits [success] with [v] and resolves
    the promise with [v]; these, and the arming of the timer, are all its
    effects.  Without a custom function every call is a [fetch] of the
    default transport, and there is at least one. *)
Theorem custom_uploader_used network native (u : Uploader) (file : File)
    (options : option UploadOptions) :
  let merged := spreadOptional (defaultUploadOptions u) options in
  let r := upload network native file options (start u) in
  (∀ custom v,
     read (customUploader (config u)) = Some custom ->
     custom file merged 0%nat = Fulfils v ->
     trace_of r = [CallCustom file merged; SetTimeout (read (timeout (config u)));
                   Emit (EvSuccess v); Resolve v] ∧
     calls (trace_of r) = [CallCustom file merged] ∧
     result_of r = Some (Resolved v)) ∧
  (read (customUploader (config u)) = None ->
   (∃ t, trace_of r = Fetch (defaultRequest file (Some merged)) :: t) ∧
   ∀ a, a ∈ calls (trace_of r) -> a = Fetch (defaultRequest file (Some merged))).
Proof.
  cbn zeta. split.
  - intros custom v Hc Hv. unfold start. rewrite upload_unfold.
    rewrite (attempt_success _ _ _ _ _ _ _ _ v); [|apply unsent_start|].
    2:{ unfold behaviourAt. by rewrite Hc. }
    unfold successfulAttempt, raceTrace, invocation, behaviourAt.
    rewrite Hc, Hv. done.
  - intros Hnone.
    assert (invocation u file (spreadOptional (defaultUploadOptions u) options)
            = Fetch (defaultRequest file
                       (Some (spreadOptional (defaultUploadOptions u) options)))) as Hinv.
    { unfold invocation. by rewrite Hnone. }
    rewrite <- Hinv. split; [apply upload_first_call|apply upload_calls].
Qed.

(** ** C8: the timeout race *)

(** C8.  [upload] runs the loop from attempt 0 on the state [s] that holds
    the instance and the progress object, and:
    - an attempt whose call returns a promise arms a timer with the
      configured [timeout] right after the call, has no other effect until
      the race is decided, and when the timer fires first the race ends with
      the error [Upload timeout];
    - an attempt that times out and an attempt whose promise is rejected go
      through the same steps, with the timeout error in place of the
      rejection's: the [error] event, then either the [retry] event, the wait
      and the next attempt, or the rejection of the caller's promise;
      nothing else happens, in particular nothing is done to the call that
      timed out;
    - a [fetch] is given no abort signal;
    - the promise is always settled, and it is rejected only when every
      attempt up to the retry budget failed, with the last one's error. *)
Theorem timeout_handled_as_failure network native (u : Uploader) (file : File)
    (options : option UploadOptions) :
  let merged := spreadOptional (defaultUploadOptions u) options in
  let key := generateFileKey file in
  let s := {| this := u; xhrs := [progressXhr] |} in
  let beh := behaviourAt network u file merged in
  let call := invocation u file merged in
  let timer := SetTimeout (read (timeout (config u))) in
  let r := upload network native file options (start u) in
  r = attemptUpload network native (S (retryBudget (config u))) file key merged 0 s ∧
  (∀ k, (∀ e, beh k ≠ Throws e) ->
     let race_k := race network native file merged k s in
     trace_of race_k = [call; timer] ∧ state_of race_k = s ∧
     (beh k = Stalls -> result_of race_k = inr timeoutError)) ∧
  (∀ k fuel e, (beh k = Stalls ∧ e = timeoutError) ∨ beh k = Rejects e ->
     attemptUpload network native (S fuel) file key merged k s
     = if mayRetry (config u) k then
         let '(res, s', t) := attemptUpload network native fuel file key merged (S k) s in
         (res, s',
          [call; timer; Emit (EvError e); Emit (EvRetry (S k) e);
           Wait (1000 * Z.of_nat (S k))] ++ t)
       else
         (Some (Rejected e), s, [call; timer; Emit (EvError e); Reject e])) ∧
  (∀ req, Fetch req ∈ trace_of r -> req_signal req = None) ∧
  is_Some (result_of r) ∧
  (∀ e, result_of r = Some (Rejected e) ->
     (∀ j, (j ≤ retryBudget (config u))%nat -> is_Some (failure (beh j))) ∧
     failure (beh (retryBudget (config u))) = Some e).
Proof.
  cbn zeta.
  assert (unsent [progressXhr]) as Hxs by apply unsent_start.
  split; [apply upload_unfold|]. split; [|split; [|split; [|split]]].
  - intros k Hk. rewrite race_run by done.
    unfold trace_of, state_of, result_of, raceTrace. cbn [fst snd].
    destruct (behaviourAt _ _ _ _ _) as [e| | |] eqn:Hb; try done.
    by destruct (Hk e).
  - intros k fuel e Hb.
    assert (failure (behaviourAt network u file
                       (spreadOptional (defaultUploadOptions u) options) k) = Some e
            ∧ raceTrace u file (spreadOptional (defaultUploadOptions u) options)
                (behaviourAt network u file
                   (spreadOptional (defaultUploadOptions u) options) k)
              = [invocation u file (spreadOptional (defaultUploadOptions u) options);
                 SetTimeout (read (timeout (config u)))]) as [Hf Hrace].
    { unfold raceTrace. by destruct Hb as [[-> ->]| ->]. }
    destruct (mayRetry (config u) k) eqn:Hr.
    + rewrite (attempt_retry _ _ _ _ _ _ _ _ e) by done.
      unfold retriedAttempt. rewrite Hrace. reflexivity.
    + rewrite (attempt_giveup _ _ _ _ _ _ _ _ e) by done.
      unfold lastAttempt. rewrite Hrace. reflexivity.
  - intros req Hreq.
    pose proof (upload_alphabet network native file options u) as Hall.
    rewrite Forall_forall in Hall. specialize (Hall _ Hreq).
    inversion Hall as [Hinv| | | | | | |].
    unfold invocation in Hinv. destruct (read _); [discriminate|].
    by injection Hinv as <-.
  - apply upload_settles.
  - apply upload_rejected.
Qed.

(** ** C9: what changes the cache *)

Lemma cacheAll_keeps l (cache : gmap string File) key :
  is_Some (cache !! key) -> is_Some (cacheAll l cache !! key).
Proof. rewrite cacheAll_lookup. by destruct (lastWithKey key l). Qed.

(** C9.  [upload] leaves the configuration and the default options as they
    were; it leaves the cache as it was unless it resolves, and then the cache
    is the old one without the entry under the key of the uploaded file: every
    other entry stays.  The same holds for the loop started at any attempt, so
    no failed attempt changes the instance.  [setDefaultUploadOptions] does
    not touch the cache, and a selection removes no entry. *)
Theorem cache_changed_by_selection_and_success_only network native (u : Uploader)
    (file : File) (options : option UploadOptions) :
  let merged := spreadOptional (defaultUploadOptions u) options in
  let key := generateFileKey file in
  let s := {| this := u; xhrs := [progressXhr] |} in
  let r := upload network native file options (start u) in
  config (final r) = config u ∧
  defaultUploadOptions (final r) = defaultUploadOptions u ∧
  fileCache (final r)
  = match result_of r with
    | Some (Resolved _) => delete key (fileCache u)
    | _ => fileCache u
    end ∧
  (∀ k, k ≠ key -> fileCache (final r) !! k = fileCache u !! k) ∧
  (∀ fuel k,
     let a := attemptUpload network native fuel file key merged k s in
     (∀ v, result_of a ≠ Some (Resolved v)) -> state_of a = s) ∧
  (∀ o, fileCache (final (setDefaultUploadOptions o (start u))) = fileCache u) ∧
  (∀ files k, is_Some (fileCache u !! k) ->
     is_Some (fileCache (final (handleFileSelection files (start u))) !! k)).
Proof.
  cbn zeta. rewrite upload_state.
  repeat split.
  - by destruct (result_of _) as [[]|].
  - by destruct (result_of _) as [[]|].
  - by destruct (result_of _) as [[]|].
  - intros k Hk. destruct (result_of _) as [[]|]; try done.
    cbn. by rewrite lookup_delete_ne.
  - intros fuel k Hres. rewrite attempt_state by apply unsent_start.
    destruct (result_of _) as [[v|]|]; try done. by destruct (Hres v).
  - intros files k Hk. unfold start. rewrite handleFileSelection_run.
    unfold final. cbn. by apply cacheAll_keeps.
Qed.

(** ** C10: the defaults of a fresh instance *)

(** C10.  A fresh instance has the default options
    [{method: 'POST', url: '/upload'}].  When no custom upload function is
    configured, an [upload] without per-call options on it starts with a
    [fetch] of ['/upload'] with method [POST], and every call it makes is
    that [fetch]. *)
Theorem fresh_uploader_posts_to_upload network native (c : UploadConfig) (file : File) :
  read (customUploader c) = None ->
  let u := new_Uploader c in
  let r := upload network native file None (start u) in
  let req := {| req_url := "/upload"; req_method := POST; req_headers := None;
                req_body := [("file", FormFile file)]; req_signal := None |} in
  defaultUploadOptions u
  = {| url := Value "/upload"; method := Value POST; headers := Absent; data := Absent |} ∧
  (∃ t, trace_of r = Fetch req :: t) ∧
  (∀ a, a ∈ calls (trace_of r) -> a = Fetch req).
Proof.
  intros Hc. cbn zeta.
  assert (read (customUploader (config (new_Uploader c))) = None) as Hc'.
  { cbn. by destruct (customUploader c). }
  assert (invocation (new_Uploader c) file
            (spreadOptional (defaultUploadOptions (new_Uploader c)) None)
          = Fetch {| req_url := "/upload"; req_method := POST; req_headers := None;
                     req_body := [("file", FormFile file)]; req_signal := None |}) as Hinv.
  { unfold invocation. rewrite Hc'. reflexivity. }
  split; [reflexivity|]. rewrite <- Hinv.
  split; [apply upload_first_call|apply upload_calls].
Qed.

(** ** C2: progress reporting *)

(** The handler translates a native event into [{total, loaded, percent}]. *)
Lemma progressHandler_payload (event : ProgressEvent) :
  lengthComputable event = true ->
  progressHandler event
  = [EvProgress (total event) (loaded event)
       ((inject_Z (loaded event) / inject_Z (total event)) * 100)%Q].
Proof. unfold progressHandler. by intros ->. Qed.

(** An [XMLHttpRequest] that carries the transfer hands its events to the
    handler. *)
Lemma dispatchProgress_sent events handler :
  dispatchProgress events {| xhr_sent := true; xhr_onprogress := Some handler |}
  = flat_map handler events.
Proof. reflexivity. Qed.

(** C2, on the code.  A fresh instance uploads [report] through the default
    transport; the transfer reports being halfway, which the handler would
    turn into the event [{total: 100, loaded: 50, percent: 50}].  The only
    event of the call is [success]: the object carrying the handler is never
    sent, so the native event reaches no handler. *)
Theorem default_transport_progress_is_lost :
  let u := new_Uploader emptyConfig in
  let r := upload online halfway report None (start u) in
  flat_map progressHandler (halfway 0%nat)
  = [EvProgress 100 50 ((inject_Z 50 / inject_Z 100) * 100)%Q] ∧
  (∃ req, calls (trace_of r) = [Fetch req]) ∧
  xhrs (state_of r) = [{| xhr_sent := false; xhr_onprogress := Some progressHandler |}] ∧
  events (trace_of r) = [EvSuccess (VObject [("ok", VBool true)])] ∧
  progressEvents (trace_of r) = [].
Proof.
  cbn zeta. split; [reflexivity|]. split; [eexists; reflexivity|].
  split; [reflexivity|]. split; [reflexivity|]. apply upload_no_progress.
Qed.

(** ** Worked instances *)

Lemma always_failing_upload_witness :
  let r := upload offline silent report None (start (new_Uploader emptyConfig)) in
  result_of r = Some (Rejected (VError "offline")) ∧
  length (calls (trace_of r)) = 4%nat ∧
  retries (trace_of r)
  = [EvRetry 1 (VError "offline"); EvRetry 2 (VError "offline");
     EvRetry 3 (VError "offline")] ∧
  waits (trace_of r) = [1000; 2000; 3000].
Proof.
  destruct (always_failing_upload offline silent (new_Uploader emptyConfig) report None
              3 (fun _ => VError "offline"))
    as (Hres & _ & Hcalls & Hretries & Hwaits);
    [reflexivity|intros k Hk; reflexivity|].
  repeat split; assumption.
Defined.

Lemma selection_keeps_files_within_max_witness :
  let r := handleFileSelection [report; movie] (start (new_Uploader emptyConfig)) in
  ∃ payload,
    filter (fun ev => is_select ev = true) (events (trace_of r)) = [EvSelect payload] ∧
    report ∈ payload ∧
    fileCache (final r) !! generateFileKey report = Some report.
Proof.
  destruct (selection_keeps_files_within_max (start (new_Uploader emptyConfig))
              [report; movie]) as (payload & Hsel & _ & Hfiles).
  exists payload. split; [exact Hsel|].
  destruct (Hfiles report) as (Hin & _ & Hcache).
  - apply list_elem_of_here.
  - intros m [= <-]. vm_compute. discriminate.
  - split; [exact Hin|]. apply Hcache. reflexivity.
Defined.

Lemma selection_drops_files_over_limit_witness :
  let r := handleFileSelection [report; movie] (start (new_Uploader emptyConfig)) in
  keptOut (start (new_Uploader emptyConfig)) [report; movie] movie ∧
  filter (fun ev => is_error ev = true) (events (trace_of r))
  = [EvError (VString oversizeMessage)].
Proof.
  destruct (selection_drops_files_over_limit (start (new_Uploader emptyConfig))
              [report; movie] movie) as (Hout & Herr & _).
  - apply list_elem_of_further, list_elem_of_here.
  - exists (10 * 1024 * 1024). split; [reflexivity|]. split; [lia|reflexivity].
  - split; assumption.
Defined.

(** C4 as stated fails: with a maximum size of zero, a file of 2048 bytes is
    above the configured maximum and is selected all the same. *)
Lemma zero_max_keeps_every_file :
  ¬ excludesAboveMax (start (new_Uploader zeroMax)) [report].
Proof.
  intros H. destruct (H report) as [Hsel _].
  - apply list_elem_of_here.
  - exists 0. split; reflexivity.
  - apply Hsel. exists [report]. split; apply list_elem_of_here.
Qed.

Lemma custom_uploader_used_witness :
  let r := upload offline silent report None (start (new_Uploader withCustom)) in
  calls (trace_of r)
  = [CallCustom report (defaultUploadOptions (new_Uploader withCustom))] ∧
  events (trace_of r) = [EvSuccess (VObject [("success", VBool true)])] ∧
  result_of r = Some (Resolved (VObject [("success", VBool true)])).
Proof.
  destruct (custom_uploader_used offline silent (new_Uploader withCustom) report None)
    as [Hcustom _].
  destruct (Hcustom accepting (VObject [("success", VBool true)]))
    as (Htrace & Hcalls & Hres); [reflexivity|reflexivity|].
  split; [exact Hcalls|]. split; [|exact Hres].
  rewrite Htrace. reflexivity.
Defined.

Lemma reselection_overwrites_witness :
  let s0 := start (new_Uploader emptyConfig) in
  let s1 := state_of (handleFileSelection [report] s0) in
  let s2 := state_of (handleFileSelection [reportAgain] s1) in
  generateFileKey report = generateFileKey reportAgain ∧
  fileCache (this s1) !! generateFileKey report = Some report ∧
  fileCache (this s2) !! generateFileKey report = Some reportAgain ∧
  entriesUnder (generateFileKey report) (fileCache (this s2))
  = [(generateFileKey report, reportAgain)].
Proof.
  apply (reselection_overwrites (start (new_Uploader emptyConfig))
           [report] [reportAgain] report reportAgain); reflexivity.
Defined.

Lemma timeout_handled_as_failure_witness :
  let u := new_Uploader emptyConfig in
  let s := {| this := u; xhrs := [progressXhr] |} in
  let r := upload hangsOnce silent report None (start u) in
  result_of (race hangsOnce silent report (defaultUploadOptions u) 0 s) = inr timeoutError ∧
  events (trace_of r)
  = [EvError timeoutError; EvRetry 1 timeoutError;
     EvSuccess (VObject [("ok", VBool true)])] ∧
  is_Some (result_of r).
Proof.
  destruct (timeout_handled_as_failure hangsOnce silent (new_Uploader emptyConfig)
              report None) as (Hrun & Hrace & Hstep & _ & Hsettles & _).
  split; [|split; [|exact Hsettles]].
  - apply (Hrace 0%nat); [intros e; discriminate|reflexivity].
  - rewrite Hrun.
    rewrite (Hstep 0%nat _ timeoutError) by (left; split; reflexivity).
    reflexivity.
Defined.

Lemma fresh_uploader_posts_to_upload_witness :
  let r := upload online silent report None (start (new_Uploader emptyConfig)) in
  ∃ t, trace_of r
       = Fetch {| req_url := "/upload"; req_method := POST; req_headers := None;
                  req_body := [("file", FormFile report)]; req_signal := None |} :: t.
Proof.
  destruct (fresh_uploader_posts_to_upload online silent emptyConfig report)
    as (_ & Hfirst & _); [reflexivity|exact Hfirst].
Defined.

(** ** Further properties of [upload] *)




Section UploadBounds.

Variable network : Request -> nat -> Behaviour.
Variable native : nat -> list ProgressEvent.
Variable file : File.
Variable opts : UploadOptions.
Variable u : Uploader.
Variable xs : list Xhr.
Hypothesis Hxs : unsent xs.

Local Abbreviation attempt fuel k :=
  (attemptUpload network native fuel file (generateFileKey file) opts k
     {| this := u; xhrs := xs |}).


End UploadBounds.


(** When the attempts 0, ..., n-1 fail and attempt [n], within the retry
    budget, is fulfilled with [v], [upload] resolves with [v] after [n]
    retries and [n + 1] calls, and the cache loses the entry of the file. *)
Theorem upload_succeeds_after_retries network native (u : Uploader) (file : File)
    (options : option UploadOptions) (n : nat) (err : nat -> JsVal) (v : JsVal) :
  (n ≤ retryBudget (config u))%nat ->
  (∀ k, (k < n)%nat ->
     failure (behaviourAt network u file
                (spreadOptional (defaultUploadOptions u) options) k) = Some (err k)) ->
  behaviourAt network u file (spreadOptional (defaultUploadOptions u) options) n
  = Fulfils v ->
  let merged := spreadOptional (defaultUploadOptions u) options in
  let beh := behaviourAt network u file merged in
  let r := upload network native file options (start u) in
  result_of r = Some (Resolved v) ∧
  trace_of r
  = flat_map (fun k => retriedAttempt u file merged (beh k) (err k) k) (seq 0 n)
    ++ successfulAttempt u file merged (beh n) v ∧
  length (calls (trace_of r)) = S n ∧
  retries (trace_of r) = (fun k => EvRetry k (err (pred k))) <$> seq 1 n ∧
  final r = withCache u (delete (generateFileKey file) (fileCache u)) ∧
  getCachedFile (final r) (generateFileKey file) = None.
Proof.
  intros Hn Herr Hv merged beh r.
  assert (unsent ([] ++ [progressXhr])) as Hxs by apply unsent_start.
  assert (r = (Some (Resolved v),
               {| this := withCache u (delete (generateFileKey file) (fileCache u));
                  xhrs := [] ++ [progressXhr] |},
               flat_map (fun k => retriedAttempt u file merged (beh k) (err k) k) (seq 0 n)
               ++ successfulAttempt u file merged (beh n) v)) as ->.
  { subst r. unfold start. rewrite upload_unfold.
    replace (S (retryBudget (config u)))
      with (n + S (retryBudget (config u) - n))%nat by lia.
    rewrite (attempts_retried _ _ _ _ _ _ Hxs err); [|intros j Hj; apply Herr; lia|lia].
    cbn [Nat.add]. by rewrite (attempt_success _ _ _ _ _ _ _ _ v). }
  unfold result_of, trace_of, final, getCachedFile. cbn [fst snd this].
  split; [reflexivity|]. split; [reflexivity|].
  unfold successfulAttempt. split; [|split; [|split]].
  - rewrite !calls_app, !length_app, calls_retried, calls_raceTrace.
    change (calls [Emit (EvSuccess v); Resolve v]) with (@nil Action).
    cbn [length]. lia.
  - rewrite !retries_app, retries_retried. unfold retries at 1 2.
    rewrite events_raceTrace. cbn. by rewrite app_nil_r.
  - reflexivity.
  - cbn. apply lookup_delete_eq.
Qed.

Lemma upload_succeeds_after_retries_witness :
  let r := upload hangsOnce silent report None (start (new_Uploader emptyConfig)) in
  result_of r = Some (Resolved (VObject [("ok", VBool true)])) ∧
  length (calls (trace_of r)) = 2%nat ∧
  retries (trace_of r) = [EvRetry 1 timeoutError].
Proof.
  destruct (upload_succeeds_after_retries hangsOnce silent (new_Uploader emptyConfig)
              report None 1 (fun _ => timeoutError) (VObject [("ok", VBool true)]))
    as (Hres & _ & Hcalls & Hretries & _).
  - vm_compute. lia.
  - intros k Hk. assert (k = 0%nat) as -> by lia. reflexivity.
  - reflexivity.
  - repeat split; assumption.
Defined.

(** ** Looking a selected file up *)

(** After the selection of a batch whose files have pairwise distinct keys,
    [getCachedFile] returns, for the key of each file that passed the size
    filter, that very file. *)
Theorem getCachedFile_after_selection (s : Sys) (files : list File) (f : File) :
  NoDup (generateFileKey <$> files) ->
  f ∈ files ->
  withinLimit (config (this s)) f = true ->
  getCachedFile (final (handleFileSelection files s)) (generateFileKey f) = Some f.
Proof.
  intros Hnd Hin Hok. destruct s as [u xs]. rewrite handleFileSelection_run.
  unfold getCachedFile, final. cbn [fst snd this withCache fileCache] in *.
  rewrite cacheAll_lookup.
  by rewrite (lastWithKey_valid _ _ _ _ (lastWithKey_NoDup _ _ Hnd Hin) Hok).
Qed.

Lemma getCachedFile_after_selection_witness :
  getCachedFile
    (final (handleFileSelection [report; movie] (start (new_Uploader emptyConfig))))
    (generateFileKey report)
  = Some report.
Proof.
  apply (getCachedFile_after_selection (start (new_Uploader emptyConfig))
           [report; movie] report).
  - apply (bool_decide_unpack (NoDup (generateFileKey <$> [report; movie]))).
    vm_compute. exact I.
  - apply list_elem_of_here.
  - reflexivity.
Defined.

(** ** The constructor *)


(** ** Sessions: what every reachable state satisfies *)

Lemma forEach_state {A} (body : A -> UpM unit) a l s :
  state_of (forEach (a :: l) body s) = state_of (forEach l body (state_of (body a s))).
Proof.
  cbn [forEach]. unfold mbind, UpM_bind, state_of.
  destruct (body a s) as [[[] s1] t1]. cbn [fst snd].
  by destruct (forEach l body s1) as [[[] s2] t2].
Qed.

Lemma cacheSound_cacheAll c l cache :
  cacheSound c cache -> cacheSound c (cacheAll (validFiles c l) cache).
Proof.
  intros Hc key f. rewrite cacheAll_lookup.
  destruct (lastWithKey key _) as [g|] eqn:Hg; [|apply Hc].
  intros [= ->]. apply lastWithKey_elem in Hg as [Hin Hk].
  apply list_elem_of_filter in Hin as [Hok _]. done.
Qed.

Lemma cacheSound_delete c key cache :
  cacheSound c cache -> cacheSound c (delete key cache).
Proof.
  intros Hc k f Hk. apply lookup_delete_Some in Hk as [_ Hk]. by apply Hc.
Qed.

Section Sessions.

Variable network : Request -> nat -> Behaviour.
Variable native : nat -> list ProgressEvent.

(** The properties kept by every operation. *)
Local Abbreviation kept c0 i0 s :=
  (config (this s) = c0 ∧ inputElement (this s) = i0 ∧
   cacheSound c0 (fileCache (this s)) ∧ unsent (xhrs s)).

Lemma perform_kept c0 i0 op s :
  kept c0 i0 s -> kept c0 i0 (state_of (perform network native op s)).
Proof.
  destruct s as [u xs]. cbn [this xhrs]. intros (<- & <- & Hcache & Hxs).
  destruct op as [[files|]|o|file options]; cbn [perform onChange].
  - rewrite handleFileSelection_run. unfold state_of. cbn.
    split; [done|]. split; [done|]. split; [by apply cacheSound_cacheAll|done].
  - done.
  - by rewrite setDefaultUploadOptions_run.
  - unfold mbind, UpM_bind, mret, UpM_ret. rewrite upload_unfold.
    pose proof (attempt_state network native file
                  (spreadOptional (defaultUploadOptions u) options) u _
                  (unsent_progressXhr _ Hxs) (S (retryBudget (config u))) 0) as Hst.
    destruct (attemptUpload _ _ _ _ _ _ _ _) as [[res s'] t].
    unfold state_of, result_of in *. cbn [fst snd] in *. subst s'.
    destruct res as [[v|e]|]; cbn;
      (split; [done|]; split; [done|]; split; [|by apply unsent_progressXhr]);
      [by apply cacheSound_delete|done|done].
Qed.

Lemma session_kept c0 i0 ops : ∀ s,
  kept c0 i0 s -> kept c0 i0 (state_of (session network native ops s)).
Proof.
  unfold session. induction ops as [|op ops IH]; intros s Hs.
  - by destruct s.
  - rewrite forEach_state. apply IH. by apply perform_kept.
Qed.

End Sessions.

(** Whatever is done to an instance after its construction (selections
    through the file input, changes of the default options, uploads), its
    configuration and its input element stay those of the constructor, every
    cache entry sits under the key of its file and holds a file that passes
    the size filter, and no [XMLHttpRequest] it created was ever sent. *)
Theorem session_invariant network native (c : UploadConfig) (ops : list Operation) :
  let u0 := new_Uploader c in
  let s := state_of (session network native ops (start u0)) in
  config (this s) = config u0 ∧
  inputElement (this s) = inputElement u0 ∧
  cacheSound (config u0) (fileCache (this s)) ∧
  unsent (xhrs s).
Proof.
  cbn zeta. apply session_kept.
  split; [done|]. split; [done|]. split; [|constructor].
  intros key f Hk. cbn in Hk. by apply lookup_empty_Some in Hk.
Qed.

(** ** The key determines the metadata *)

Lemma chars_app s1 s2 : chars (s1 +:+ s2) = chars s1 ++ chars s2.
Proof.
  unfold chars. induction s1 as [|c s1 IH]; [reflexivity|].
  change (c :: String.list_ascii_of_string (s1 +:+ s2)
          = c :: (String.list_ascii_of_string s1 ++ String.list_ascii_of_string s2)).
  by rewrite IH.
Qed.

Lemma chars_inj s1 s2 : chars s1 = chars s2 -> s1 = s2.
Proof.
  intros H. rewrite <- (String.string_of_list_ascii_of_string s1),
    <- (String.string_of_list_ascii_of_string s2). unfold chars in H. by rewrite H.
Qed.

(** Two ways of cutting a list at an element that does not occur after the
    cut are the same. *)
Lemma cut_unique {A} (x : A) (a1 a2 b1 b2 : list A) :
  x ∉ b1 -> x ∉ b2 -> a1 ++ x :: b1 = a2 ++ x :: b2 -> a1 = a2 ∧ b1 = b2.
Proof.
  intros H1 H2. revert a2.
  induction a1 as [|y a1 IH]; intros [|z a2]; cbn; intros E.
  - by injection E as ->.
  - exfalso. injection E as _ E. apply H1. rewrite E.
    apply elem_of_app. right. apply list_elem_of_here.
  - exfalso. injection E as _ E. apply H2. rewrite <- E.
    apply elem_of_app. right. apply list_elem_of_here.
  - injection E as -> E. by destruct (IH a2 E) as [-> ->].
Qed.

Lemma pretty_N_char_not_dash x : pretty_N_char x ≠ dash.
Proof. unfold pretty_N_char. by repeat case_match. Qed.

Lemma pretty_N_go_chars x : ∀ s,
  ∃ d, chars (pretty_N_go x s) = d ++ chars s ∧ (dash ∉ d) ∧ ((0 < x)%N -> d ≠ []).
Proof.
  induction (N.lt_wf_0 x) as [x _ IH]. intros s.
  destruct (decide (0 < x)%N) as [Hx|Hx].
  - rewrite pretty_N_go_step by done.
    destruct (IH (N.div x 10) (N.div_lt x 10 Hx eq_refl)
                (String (pretty_N_char (N.modulo x 10)) s)) as (d & Hd & Hnd & _).
    exists (d ++ [pretty_N_char (N.modulo x 10)]). split; [|split].
    + rewrite Hd. cbn. by rewrite <- app_assoc.
    + rewrite elem_of_app, list_elem_of_singleton.
      intros [?|E]; [done|]. by apply (pretty_N_char_not_dash (N.modulo x 10)).
    + intros _. by destruct d.
  - assert (x = 0%N) as -> by lia. rewrite pretty_N_go_0.
    exists []. split; [done|]. split; [apply not_elem_of_nil|lia].
Qed.

Lemma pretty_N_chars (x : N) : (dash ∉ chars (pretty x)) ∧ chars (pretty x) ≠ [].
Proof.
  unfold pretty, pretty_N. destruct (decide (x = 0%N)) as [->|Hx].
  - split; [|done]. cbn. rewrite list_elem_of_singleton. done.
  - destruct (pretty_N_go_chars x "") as (d & Hd & Hnd & Hne).
    rewrite Hd. cbn. rewrite app_nil_r. split; [done|]. apply Hne. lia.
Qed.

(** The decimal form of an integer: digits, after a dash when negative. *)
Lemma pretty_Z_chars (z : Z) :
  ∃ d, (dash ∉ d) ∧ d ≠ [] ∧
       (chars (pretty z) = d ∨ (z < 0 ∧ chars (pretty z) = dash :: d)).
Proof.
  destruct z as [|p|p]; unfold pretty, pretty_Z.
  - exists ["0"%char]. split; [|split; [done|by left]].
    rewrite list_elem_of_singleton. done.
  - exists (chars (pretty (N.pos p))).
    destruct (pretty_N_chars (N.pos p)) as [H1 H2]. split; [done|]. split; [done|by left].
  - exists (chars (pretty (N.pos p))).
    destruct (pretty_N_chars (N.pos p)) as [H1 H2]. split; [done|]. split; [done|].
    right. split; [lia|]. by rewrite chars_app.
Qed.

Lemma chars_generateFileKey f :
  chars (generateFileKey f)
  = chars (name f) ++ dash :: chars (pretty (size f))
    ++ dash :: chars (pretty (lastModified f)).
Proof. unfold generateFileKey. by rewrite !chars_app. Qed.

(** Files whose sizes are not negative (as the sizes of browser files are)
    and whose keys are equal have the same name, size and modification
    time: in the cache, a file is overwritten only by a file with the same
    metadata. *)
Theorem generateFileKey_injective (f g : File) :
  0 ≤ size f -> 0 ≤ size g ->
  generateFileKey f = generateFileKey g ->
  name f = name g ∧ size f = size g ∧ lastModified f = lastModified g.
Proof.
  intros Hf Hg Hkey. apply (f_equal chars) in Hkey.
  rewrite !chars_generateFileKey in Hkey.
  destruct (pretty_Z_chars (size f)) as (sf & Hsf & Hsfne & [Esf|[? _]]); [|lia].
  destruct (pretty_Z_chars (size g)) as (sg & Hsg & Hsgne & [Esg|[? _]]); [|lia].
  assert (chars (name f) ++ dash :: sf = chars (name g) ++ dash :: sg ->
          name f = name g ∧ size f = size g) as Hhead.
  { intros E. apply cut_unique in E as [En Es]; [|done..]. split.
    - by apply chars_inj.
    - apply (inj pretty), chars_inj. by rewrite Esf, Esg, Es. }
  assert (∀ n s l : list ascii,
            n ++ dash :: s ++ dash :: l = (n ++ dash :: s) ++ dash :: l) as Hpos.
  { intros n s l. by rewrite <- app_assoc. }
  assert (∀ n s l : list ascii,
            n ++ dash :: s ++ dash :: dash :: l
            = ((n ++ dash :: s) ++ [dash]) ++ dash :: l) as Hneg.
  { intros n s l. by rewrite <- !app_assoc. }
  assert (∀ n n' s s' : list ascii,
            dash ∉ s -> s ≠ [] -> n ++ dash :: s ≠ (n' ++ dash :: s') ++ [dash])
    as Hends.
  { intros n n' s s' Hs Hne E. destruct s as [|c s _] using rev_ind; [done|].
    rewrite app_comm_cons, app_assoc in E. apply app_inj_tail in E as [_ ->].
    apply Hs, elem_of_app. right. apply list_elem_of_here. }
  rewrite Esf, Esg in Hkey.
  destruct (pretty_Z_chars (lastModified f)) as (lf & Hlf & Hlfne & [Elf|[_ Elf]]);
    destruct (pretty_Z_chars (lastModified g)) as (lg & Hlg & Hlgne & [Elg|[_ Elg]]);
    rewrite Elf, Elg in Hkey.
  - rewrite (Hpos _ sf lf), (Hpos _ sg lg) in Hkey.
    apply cut_unique in Hkey as [Eh El]; [|done..].
    destruct (Hhead Eh) as [En Es]. split; [done|]. split; [done|].
    apply (inj pretty), chars_inj. by rewrite Elf, Elg, El.
  - exfalso. rewrite (Hpos _ sf lf), (Hneg _ sg lg) in Hkey.
    apply cut_unique in Hkey as [Eh _]; [|done..].
    by apply Hends in Eh.
  - exfalso. rewrite (Hneg _ sf lf), (Hpos _ sg lg) in Hkey.
    apply cut_unique in Hkey as [Eh _]; [|done..].
    symmetry in Eh. by apply Hends in Eh.
  - rewrite (Hneg _ sf lf), (Hneg _ sg lg) in Hkey.
    apply cut_unique in Hkey as [Eh El]; [|done..].
    apply app_inj_tail in Eh as [Eh _].
    destruct (Hhead Eh) as [En Es]. split; [done|]. split; [done|].
    apply (inj pretty), chars_inj. by rewrite Elf, Elg, El.
Qed.

Lemma generateFileKey_injective_witness :
  name report = name reportAgain ∧ size report = size reportAgain ∧
  lastModified report = lastModified reportAgain.
Proof.
  apply (generateFileKey_injective report reportAgain); [vm_compute; discriminate..|].
  reflexivity.
Defined.

(** ** Uploads from any reachable state *)

Section AnyState.

Variable network : Request -> nat -> Behaviour.
Variable native : nat -> list ProgressEvent.
Variable file : File.
Variable opts : UploadOptions.
Variable u : Uploader.
Variable xs xs' : list Xhr.
Hypothesis Hxs : unsent xs.
Hypothesis Hxs' : unsent xs'.

Local Abbreviation attempt fuel k ys :=
  (attemptUpload network native fuel file (generateFileKey file) opts k
     {| this := u; xhrs := ys |}).

(** The objects left by earlier uploads do not influence the loop. *)
Lemma attempt_xhrs_irrelevant fuel : ∀ k,
  result_of (attempt fuel k xs) = result_of (attempt fuel k xs') ∧
  trace_of (attempt fuel k xs) = trace_of (attempt fuel k xs') ∧
  final (attempt fuel k xs) = final (attempt fuel k xs').
Proof.
  induction fuel as [|fuel IH]; intros k; [done|].
  destruct (attempt_cases network native file opts u xs Hxs fuel k)
    as [(v & Hb & ->)|[(e & Hb & Hk & ->)|(e & Hb & Hk & ->)]].
  - by rewrite (attempt_success _ _ _ _ _ xs' _ _ v).
  - assert (mayRetry (config u) k = true) as Hr'.
    { rewrite mayRetry_budget. by apply bool_decide_eq_true. }
    rewrite (attempt_retry _ _ _ _ _ xs' _ _ e) by done.
    destruct (IH (S k)) as (Hr & Ht & Hf).
    destruct (attempt fuel (S k) xs) as [[r1 s1] t1],
             (attempt fuel (S k) xs') as [[r2 s2] t2].
    unfold result_of, trace_of, final in *. cbn [fst snd] in *.
    by rewrite Hr, Ht, Hf.
  - assert (mayRetry (config u) k = false) as Hr'.
    { rewrite mayRetry_budget. apply bool_decide_eq_false. lia. }
    by rewrite (attempt_giveup _ _ _ _ _ xs' _ _ e).
Qed.

End AnyState.

(** An [upload] made in a state where earlier uploads have left their
    progress objects behind goes as it would right after the construction of
    the same instance. *)
Lemma upload_xhrs_irrelevant network native file options u xs :
  unsent xs ->
  let r := upload network native file options {| this := u; xhrs := xs |} in
  let r0 := upload network native file options (start u) in
  result_of r = result_of r0 ∧ trace_of r = trace_of r0 ∧ final r = final r0.
Proof.
  intros Hxs. cbn zeta. unfold start. rewrite !upload_unfold.
  apply attempt_xhrs_irrelevant; [by apply unsent_progressXhr|apply unsent_start].
Qed.

(** ** The shape of every run of [upload] *)

Lemma errorAt_failure network u file opts k e :
  failure (behaviourAt network u file opts k) = Some e ->
  errorAt network u file opts k = e.
Proof. unfold errorAt. by intros ->. Qed.

Lemma retriedAttempts_cons network u file opts k n :
  retriedAttempts network u file opts k (S n)
  = retriedAttempt u file opts (behaviourAt network u file opts k)
      (errorAt network u file opts k) k
    ++ retriedAttempts network u file opts (S k) n.
Proof. reflexivity. Qed.

Section RunShape.

Variable network : Request -> nat -> Behaviour.
Variable native : nat -> list ProgressEvent.
Variable file : File.
Variable opts : UploadOptions.
Variable u : Uploader.
Variable xs : list Xhr.
Hypothesis Hxs : unsent xs.

Local Abbreviation attempt fuel k :=
  (attemptUpload network native fuel file (generateFileKey file) opts k
     {| this := u; xhrs := xs |}).
Local Abbreviation beh k := (behaviourAt network u file opts k).
Local Abbreviation err k := (errorAt network u file opts k).
Local Abbreviation budget := (retryBudget (config u)).

(** From attempt [k] on, the loop retries failed attempts up to some attempt
    [n], which either succeeds or is the last one the budget allows. *)
Lemma attempt_shape fuel : ∀ k,
  (k ≤ budget)%nat -> (budget ≤ k + fuel)%nat ->
  ∃ n, (k ≤ n ≤ budget)%nat ∧
       (∀ j, (k ≤ j < n)%nat -> is_Some (failure (beh j))) ∧
       ((∃ v, beh n = Fulfils v ∧
              attempt (S fuel) k
              = (Some (Resolved v),
                 {| this := withCache u (delete (generateFileKey file) (fileCache u));
                    xhrs := xs |},
                 retriedAttempts network u file opts k (n - k)
                 ++ successfulAttempt u file opts (beh n) v))
        ∨ (n = budget ∧ is_Some (failure (beh n)) ∧
           attempt (S fuel) k
           = (Some (Rejected (err n)), {| this := u; xhrs := xs |},
              retriedAttempts network u file opts k (n - k)
              ++ lastAttempt u file opts (beh n) (err n)))).
Proof.
  induction fuel as [|fuel IH]; intros k Hk Hfuel.
  - destruct (attempt_cases network native file opts u xs Hxs 0 k)
      as [(v & Hb & Ha)|[(e & _ & Hlt & _)|(e & Hb & _ & Ha)]]; [|lia|].
    + exists k. split; [lia|]. split; [intros j Hj; lia|].
      left. exists v. split; [done|]. by rewrite Ha, Nat.sub_diag.
    + exists k. split; [lia|]. split; [intros j Hj; lia|].
      right. split; [lia|]. split; [by rewrite Hb|].
      by rewrite Ha, Nat.sub_diag, (errorAt_failure _ _ _ _ _ _ Hb).
  - destruct (attempt_cases network native file opts u xs Hxs (S fuel) k)
      as [(v & Hb & Ha)|[(e & Hb & Hlt & Ha)|(e & Hb & Hge & Ha)]].
    + exists k. split; [lia|]. split; [intros j Hj; lia|].
      left. exists v. split; [done|]. by rewrite Ha, Nat.sub_diag.
    + destruct (IH (S k)) as (n & Hn & Hfail & Hend); [lia..|].
      exists n. split; [lia|]. split.
      { intros j Hj. destruct (decide (j = k)) as [->|]; [by rewrite Hb|].
        apply Hfail. lia. }
      replace (n - k)%nat with (S (n - S k)) by lia.
      rewrite retriedAttempts_cons, (errorAt_failure _ _ _ _ _ _ Hb), Ha.
      destruct Hend as [(v & Hv & ->)|(-> & Hf & ->)].
      * left. exists v. split; [done|]. by rewrite <- app_assoc.
      * right. split; [done|]. split; [done|]. by rewrite <- app_assoc.
    + exists k. split; [lia|]. split; [intros j Hj; lia|].
      right. split; [lia|]. split; [by rewrite Hb|].
      by rewrite Ha, Nat.sub_diag, (errorAt_failure _ _ _ _ _ _ Hb).
Qed.

End RunShape.

Lemma upload_shape network native (u : Uploader) (file : File)
    (options : option UploadOptions) :
  let merged := spreadOptional (defaultUploadOptions u) options in
  let beh := behaviourAt network u file merged in
  let err := errorAt network u file merged in
  let r := upload network native file options (start u) in
  ∃ n, (n ≤ retryBudget (config u))%nat ∧
       (∀ k, (k < n)%nat -> failure (beh k) = Some (err k)) ∧
       ((∃ v, beh n = Fulfils v ∧
              result_of r = Some (Resolved v) ∧
              trace_of r = retriedAttempts network u file merged 0 n
                           ++ successfulAttempt u file merged (beh n) v)
        ∨ (n = retryBudget (config u) ∧
           failure (beh n) = Some (err n) ∧
           result_of r = Some (Rejected (err n)) ∧
           trace_of r = retriedAttempts network u file merged 0 n
                        ++ lastAttempt u file merged (beh n) (err n))).
Proof.
  cbn zeta. unfold start. rewrite upload_unfold.
  destruct (attempt_shape network native file
              (spreadOptional (defaultUploadOptions u) options) u _ unsent_start
              (retryBudget (config u)) 0) as (n & Hn & Hfail & Hend); [lia..|].
  assert (∀ k, is_Some (failure (behaviourAt network u file
                                   (spreadOptional (defaultUploadOptions u) options) k)) ->
               failure (behaviourAt network u file
                          (spreadOptional (defaultUploadOptions u) options) k)
               = Some (errorAt network u file
                         (spreadOptional (defaultUploadOptions u) options) k)) as Herr.
  { intros k [e He]. by rewrite (errorAt_failure _ _ _ _ _ _ He). }
  exists n. split; [lia|]. split; [intros k Hk; apply Herr, Hfail; lia|].
  rewrite Nat.sub_0_r in Hend.
  destruct Hend as [(v & Hv & ->)|(-> & Hf & ->)].
  - left. by exists v.
  - right. split; [done|]. split; [by apply Herr|done].
Qed.


(** ** Counting the effects of a run *)

Lemma settlements_app t1 t2 : settlements (t1 ++ t2) = settlements t1 ++ settlements t2.
Proof. apply filter_app. Qed.

Lemma successes_app t1 t2 : successes (t1 ++ t2) = successes t1 ++ successes t2.
Proof. unfold successes. by rewrite events_app, filter_app. Qed.

Lemma errors_app t1 t2 : errors (t1 ++ t2) = errors t1 ++ errors t2.
Proof. unfold errors. by rewrite events_app, filter_app. Qed.

Lemma settlements_raceTrace u file opts b : settlements (raceTrace u file opts b) = [].
Proof. unfold raceTrace, invocation. by destruct (read _), b. Qed.

Lemma retriedAttempt_counts u file opts b e k :
  settlements (retriedAttempt u file opts b e k) = [] ∧
  successes (retriedAttempt u file opts b e k) = [] ∧
  errors (retriedAttempt u file opts b e k) = [EvError e] ∧
  retries (retriedAttempt u file opts b e k) = [EvRetry (S k) e] ∧
  waits (retriedAttempt u file opts b e k) = [1000 * Z.of_nat (S k)] ∧
  calls (retriedAttempt u file opts b e k) = [invocation u file opts].
Proof.
  unfold retriedAttempt.
  rewrite settlements_app, successes_app, errors_app, retries_app, waits_app, calls_app.
  rewrite settlements_raceTrace, waits_raceTrace, calls_raceTrace.
  unfold successes, errors, retries. rewrite events_raceTrace. done.
Qed.

Lemma retriedAttempts_counts network u file opts n : ∀ k,
  settlements (retriedAttempts network u file opts k n) = [] ∧
  successes (retriedAttempts network u file opts k n) = [] ∧
  length (errors (retriedAttempts network u file opts k n)) = n ∧
  retries (retriedAttempts network u file opts k n)
  = (fun j => EvRetry j (errorAt network u file opts (pred j))) <$> seq (S k) n ∧
  waits (retriedAttempts network u file opts k n)
  = (fun j => 1000 * Z.of_nat j) <$> seq (S k) n ∧
  length (calls (retriedAttempts network u file opts k n)) = n.
Proof.
  induction n as [|n IH]; intros k; [done|].
  rewrite retriedAttempts_cons.
  rewrite settlements_app, successes_app, errors_app, retries_app, waits_app, calls_app.
  destruct (retriedAttempt_counts u file opts (behaviourAt network u file opts k)
              (errorAt network u file opts k) k) as (-> & -> & -> & -> & -> & ->).
  destruct (IH (S k)) as (-> & -> & He & -> & -> & Hc).
  cbn [app length]. rewrite He, Hc. done.
Qed.

Lemma successfulAttempt_counts u file opts b v :
  settlements (successfulAttempt u file opts b v) = [Resolve v] ∧
  successes (successfulAttempt u file opts b v) = [EvSuccess v] ∧
  errors (successfulAttempt u file opts b v) = [] ∧
  retries (successfulAttempt u file opts b v) = [] ∧
  waits (successfulAttempt u file opts b v) = [] ∧
  calls (successfulAttempt u file opts b v) = [invocation u file opts] ∧
  last (successfulAttempt u file opts b v) = Some (Resolve v).
Proof.
  unfold successfulAttempt.
  rewrite settlements_app, successes_app, errors_app, retries_app, waits_app, calls_app,
    last_app.
  rewrite settlements_raceTrace, waits_raceTrace, calls_raceTrace.
  unfold successes, errors, retries. rewrite events_raceTrace. done.
Qed.

Lemma lastAttempt_counts u file opts b e :
  settlements (lastAttempt u file opts b e) = [Reject e] ∧
  successes (lastAttempt u file opts b e) = [] ∧
  errors (lastAttempt u file opts b e) = [EvError e] ∧
  retries (lastAttempt u file opts b e) = [] ∧
  waits (lastAttempt u file opts b e) = [] ∧
  calls (lastAttempt u file opts b e) = [invocation u file opts] ∧
  last (lastAttempt u file opts b e) = Some (Reject e).
Proof.
  unfold lastAttempt.
  rewrite settlements_app, successes_app, errors_app, retries_app, waits_app, calls_app,
    last_app.
  rewrite settlements_raceTrace, waits_raceTrace, calls_raceTrace.
  unfold successes, errors, retries. rewrite events_raceTrace. done.
Qed.

Lemma total_delay_backoff n :
  total_delay ((fun j => 1000 * Z.of_nat j) <$> seq 1 n)
  = 500 * Z.of_nat n * (Z.of_nat n + 1).
Proof.
  induction n as [|n IH]; [reflexivity|].
  rewrite seq_S, fmap_app. unfold total_delay in *. rewrite foldr_app. cbn [fmap list_fmap foldr].
  assert (∀ l z, foldr Z.add z l = foldr Z.add 0 l + z) as Hacc.
  { induction l as [|a l IHl]; intros z; cbn; [lia|]. rewrite IHl. lia. }
  rewrite Hacc, IH. lia.
Qed.


(** The waits between attempts are 1000, 2000, ... ms, one per [retry]
    event: with [n] retries they add up to [500 * n * (n + 1)] ms, and [n] is
    at most the retry budget. *)
Theorem backoff_is_linear network native (u : Uploader) (file : File)
    (options : option UploadOptions) :
  let t := trace_of (upload network native file options (start u)) in
  let n := length (retries t) in
  waits t = (fun k => 1000 * Z.of_nat k) <$> seq 1 n ∧
  total_delay (waits t) = 500 * Z.of_nat n * (Z.of_nat n + 1) ∧
  (n ≤ retryBudget (config u))%nat ∧
  length (calls t) = S n.
Proof.
  cbn zeta.
  assert (∀ t n,
            retries t = (fun j => EvRetry j (errorAt network u file
              (spreadOptional (defaultUploadOptions u) options) (pred j))) <$> seq 1 n ->
            waits t = (fun j => 1000 * Z.of_nat j) <$> seq 1 n ->
            length (calls t) = S n -> (n ≤ retryBudget (config u))%nat ->
            waits t = (fun k => 1000 * Z.of_nat k) <$> seq 1 (length (retries t)) ∧
            total_delay (waits t)
            = 500 * Z.of_nat (length (retries t)) * (Z.of_nat (length (retries t)) + 1) ∧
            (length (retries t) ≤ retryBudget (config u))%nat ∧
            length (calls t) = S (length (retries t))) as Hgen.
  { intros t n Hr Hw Hc Hn.
    assert (length (retries t) = n) as -> by (by rewrite Hr, length_fmap, length_seq).
    by rewrite Hw, total_delay_backoff. }
  destruct (upload_shape network native u file options)
    as (n & Hn & _ & [(v & _ & _ & ->)|(_ & _ & _ & ->)]);
    destruct (retriedAttempts_counts network u file
                (spreadOptional (defaultUploadOptions u) options) n 0)
      as (_ & _ & _ & Hr & Hw & Hc);
    apply (Hgen _ n); try done;
    rewrite ?retries_app, ?waits_app, ?calls_app, ?length_app, ?Hr, ?Hw, ?Hc.
  - destruct (successfulAttempt_counts u file
                (spreadOptional (defaultUploadOptions u) options)
                (behaviourAt network u file
                   (spreadOptional (defaultUploadOptions u) options) n) v)
      as (_ & _ & _ & -> & _ & _ & _). by rewrite app_nil_r.
  - destruct (successfulAttempt_counts u file
                (spreadOptional (defaultUploadOptions u) options)
                (behaviourAt network u file
                   (spreadOptional (defaultUploadOptions u) options) n) v)
      as (_ & _ & _ & _ & -> & _ & _). by rewrite app_nil_r.
  - destruct (successfulAttempt_counts u file
                (spreadOptional (defaultUploadOptions u) options)
                (behaviourAt network u file
                   (spreadOptional (defaultUploadOptions u) options) n) v)
      as (_ & _ & _ & _ & _ & -> & _). cbn [length]. lia.
  - destruct (lastAttempt_counts u file
                (spreadOptional (defaultUploadOptions u) options)
                (behaviourAt network u file
                   (spreadOptional (defaultUploadOptions u) options) n)
                (errorAt network u file
                   (spreadOptional (defaultUploadOptions u) options) n))
      as (_ & _ & _ & -> & _ & _ & _). by rewrite app_nil_r.
  - destruct (lastAttempt_counts u file
                (spreadOptional (defaultUploadOptions u) options)
                (behaviourAt network u file
                   (spreadOptional (defaultUploadOptions u) options) n)
                (errorAt network u file
                   (spreadOptional (defaultUploadOptions u) options) n))
      as (_ & _ & _ & _ & -> & _ & _). by rewrite app_nil_r.
  - destruct (lastAttempt_counts u file
                (spreadOptional (defaultUploadOptions u) options)
                (behaviourAt network u file
                   (spreadOptional (defaultUploadOptions u) options) n)
                (errorAt network u file
                   (spreadOptional (defaultUploadOptions u) options) n))
      as (_ & _ & _ & _ & _ & -> & _). cbn [length]. lia.
Qed.

(** ** Uploads without a retry budget *)

(** When [maxRetries] is [undefined], zero or negative, a failing first
    attempt is the only one: one call, its [error] event, and the rejection
    with its error; no [retry] event and no wait. *)
Theorem no_retry_without_budget network native (u : Uploader) (file : File)
    (options : option UploadOptions) (e : JsVal) :
  (∀ m, read (maxRetries (config u)) = Some m -> m ≤ 0) ->
  failure (behaviourAt network u file
             (spreadOptional (defaultUploadOptions u) options) 0) = Some e ->
  let merged := spreadOptional (defaultUploadOptions u) options in
  let r := upload network native file options (start u) in
  result_of r = Some (Rejected e) ∧
  trace_of r = lastAttempt u file merged (behaviourAt network u file merged 0) e ∧
  calls (trace_of r) = [invocation u file merged] ∧
  retries (trace_of r) = [] ∧
  waits (trace_of r) = [].
Proof.
  intros Hm He. cbn zeta.
  assert (mayRetry (config u) 0 = false) as Hr.
  { unfold mayRetry. destruct (read (maxRetries (config u))) as [m|]; [|done].
    apply bool_decide_eq_false. specialize (Hm m eq_refl). lia. }
  unfold start. rewrite upload_unfold.
  rewrite (attempt_giveup _ _ _ _ _ _ _ _ e); [|apply unsent_start|done..].
  unfold result_of, trace_of. cbn [fst snd].
  destruct (lastAttempt_counts u file (spreadOptional (defaultUploadOptions u) options)
              (behaviourAt network u file
                 (spreadOptional (defaultUploadOptions u) options) 0) e)
    as (_ & _ & _ & Hre & Hw & Hc & _).
  done.
Qed.

Lemma no_retry_without_budget_witness :
  let r := upload offline silent report None (start (new_Uploader noRetries)) in
  result_of r = Some (Rejected (VError "offline")) ∧
  length (calls (trace_of r)) = 1%nat ∧
  retries (trace_of r) = [].
Proof.
  destruct (no_retry_without_budget offline silent (new_Uploader noRetries) report None
              (VError "offline")) as (Hres & _ & Hcalls & Hretries & _).
  - intros m Hm. discriminate.
  - reflexivity.
  - split; [exact Hres|]. split; [by rewrite Hcalls|exact Hretries].
Defined.

(** ** [upload] and the cache *)

Section CacheIgnored.

Variable network : Request -> nat -> Behaviour.
Variable native : nat -> list ProgressEvent.
Variable file : File.
Variable opts : UploadOptions.
Variable u : Uploader.
Variable cache : gmap string File.
Variable xs : list Xhr.
Hypothesis Hxs : unsent xs.

Local Abbreviation attemptOn v fuel k :=
  (attemptUpload network native fuel file (generateFileKey file) opts k
     {| this := v; xhrs := xs |}).

Lemma attempt_cache_irrelevant fuel : ∀ k,
  result_of (attemptOn (withCache u cache) fuel k) = result_of (attemptOn u fuel k) ∧
  trace_of (attemptOn (withCache u cache) fuel k) = trace_of (attemptOn u fuel k).
Proof.
  induction fuel as [|fuel IH]; intros k; [done|].
  destruct (attempt_cases network native file opts u xs Hxs fuel k)
    as [(v & Hb & ->)|[(e & Hb & Hk & ->)|(e & Hb & Hk & ->)]].
  - by rewrite (attempt_success _ _ _ _ (withCache u cache) _ _ _ v).
  - assert (mayRetry (config (withCache u cache)) k = true) as Hr.
    { rewrite mayRetry_budget. by apply bool_decide_eq_true. }
    rewrite (attempt_retry _ _ _ _ (withCache u cache) _ _ _ e) by done.
    destruct (IH (S k)) as (Hres & Ht).
    destruct (attemptOn (withCache u cache) fuel (S k)) as [[r1 s1] t1],
             (attemptOn u fuel (S k)) as [[r2 s2] t2].
    unfold result_of, trace_of in *. cbn [fst snd] in *. by rewrite Hres, Ht.
  - assert (mayRetry (config (withCache u cache)) k = false) as Hr.
    { rewrite mayRetry_budget. apply bool_decide_eq_false. cbn. lia. }
    by rewrite (attempt_giveup _ _ _ _ (withCache u cache) _ _ _ e).
Qed.

End CacheIgnored.

(** [upload] does not consult the cache: whatever the cache holds, and
    whether or not the file was ever selected, the call has the same effects
    and the same outcome. *)
Theorem upload_ignores_cache network native (u : Uploader) (file : File)
    (options : option UploadOptions) (cache : gmap string File) :
  let r := upload network native file options (start (withCache u cache)) in
  let r0 := upload network native file options (start u) in
  result_of r = result_of r0 ∧ trace_of r = trace_of r0.
Proof.
  cbn zeta. unfold start. rewrite !upload_unfold.
  apply (attempt_cache_irrelevant network native file
           (spreadOptional (defaultUploadOptions u) options) u cache _ unsent_start).
Qed.

(** Uploading a file that has no entry in the cache (it was never selected,
    or was uploaded before) leaves the cache as it is, also on success. *)
Theorem upload_of_unselected_file network native (u : Uploader) (file : File)
    (options : option UploadOptions) :
  getCachedFile u (generateFileKey file) = None ->
  let r := upload network native file options (start u) in
  fileCache (final r) = fileCache u.
Proof.
  intros Hnone. cbn zeta. rewrite upload_state.
  destruct (result_of _) as [[v|e]|]; try done.
  cbn. by apply delete_id.
Qed.

Lemma upload_of_unselected_file_witness :
  fileCache (final (upload online silent report None (start (new_Uploader emptyConfig))))
  = fileCache (new_Uploader emptyConfig).
Proof.
  apply (upload_of_unselected_file online silent (new_Uploader emptyConfig) report None).
  reflexivity.
Defined.

Lemma NoDup_keys_inj (files : list File) f g :
  NoDup (generateFileKey <$> files) -> f ∈ files -> g ∈ files ->
  generateFileKey f = generateFileKey g -> f = g.
Proof.
  intros Hnd Hf Hg Hk.
  apply list_elem_of_lookup in Hf as [i Hi].
  apply list_elem_of_lookup in Hg as [j Hj].
  assert (i = j) as ->; [|congruence].
  eapply NoDup_lookup; [exact Hnd| |].
  - rewrite list_lookup_fmap, Hi. reflexivity.
  - rewrite list_lookup_fmap, Hj. cbn. by rewrite Hk.
Qed.

(** Selecting a batch with pairwise distinct keys and then uploading one of
    its files that passed the size filter: if the upload resolves, the
    cache no longer knows that file and still returns every other kept file
    of the batch; if it rejects, every kept file of the batch, the uploaded one
    included, is still there to be uploaded again. *)
Theorem select_upload_lookup network native (u : Uploader) (files : list File)
    (f : File) (options : option UploadOptions) :
  NoDup (generateFileKey <$> files) ->
  f ∈ files ->
  withinLimit (config u) f = true ->
  let s1 := state_of (handleFileSelection files (start u)) in
  let r := upload network native f options s1 in
  getCachedFile (this s1) (generateFileKey f) = Some f ∧
  match result_of r with
  | Some (Resolved _) =>
      getCachedFile (final r) (generateFileKey f) = None ∧
      ∀ g, g ∈ files -> withinLimit (config u) g = true -> g ≠ f ->
           getCachedFile (final r) (generateFileKey g) = Some g
  | _ =>
      ∀ g, g ∈ files -> withinLimit (config u) g = true ->
           getCachedFile (final r) (generateFileKey g) = Some g
  end.
Proof.
  intros Hnd Hin Hok. cbn zeta. unfold start.
  rewrite handleFileSelection_run. unfold state_of. cbn [fst snd this].
  assert (∀ g, g ∈ files -> withinLimit (config u) g = true ->
               cacheAll (validFiles (config u) files) (fileCache u) !! generateFileKey g
               = Some g) as Hcached.
  { intros g Hg Hgok. rewrite cacheAll_lookup.
    by rewrite (lastWithKey_valid _ _ _ _ (lastWithKey_NoDup _ _ Hnd Hg) Hgok). }
  split; [by apply Hcached|].
  change {| this := withCache u (cacheAll (validFiles (config u) files) (fileCache u));
            xhrs := [] |}
    with (start (withCache u (cacheAll (validFiles (config u) files) (fileCache u)))).
  rewrite upload_state. unfold getCachedFile.
  destruct (result_of _) as [[v|e]|]; cbn [withCache fileCache].
  - split; [apply lookup_delete_eq|].
    intros g Hg Hgok Hne. rewrite lookup_delete_ne; [by apply Hcached|].
    intros Hk. apply Hne. symmetry. by apply (NoDup_keys_inj files).
  - done.
  - done.
Qed.

Lemma select_upload_lookup_witness :
  let s1 := state_of (handleFileSelection [report; notes; movie]
                        (start (new_Uploader emptyConfig))) in
  let r := upload online silent report None s1 in
  getCachedFile (this s1) (generateFileKey report) = Some report ∧
  getCachedFile (final r) (generateFileKey report) = None ∧
  getCachedFile (final r) (generateFileKey notes) = Some notes.
Proof.
  destruct (select_upload_lookup online silent (new_Uploader emptyConfig)
              [report; notes; movie] report None) as [Hbefore Hafter].
  - apply (bool_decide_unpack (NoDup (generateFileKey <$> [report; notes; movie]))).
    vm_compute. exact I.
  - apply list_elem_of_here.
  - reflexivity.
  - split; [exact Hbefore|].
    change (result_of (upload online silent report None
              (state_of (handleFileSelection [report; notes; movie]
                           (start (new_Uploader emptyConfig))))))
      with (Some (Resolved (VObject [("ok", VBool true)]))) in Hafter.
    destruct Hafter as [Hgone Hkept]. split; [exact Hgone|].
    apply Hkept; [apply list_elem_of_further, list_elem_of_here|reflexivity|discriminate].
Defined.

(** ** Default options set in several steps *)

Lemma spreadOptions_assoc d o1 o2 :
  spreadOptions (spreadOptions d o1) o2 = spreadOptions d (spreadOptions o1 o2).
Proof.
  unfold spreadOptions. cbn.
  by destruct (url o2), (method o2), (headers o2), (data o2).
Qed.

(** Two calls of [setDefaultUploadOptions] in a row amount to one call with
    the second argument laid over the first: the properties accumulate, and
    for a property given twice the later call wins. *)
Theorem setDefaultUploadOptions_accumulates (o1 o2 : UploadOptions) (s : Sys) :
  (setDefaultUploadOptions o1 ;; setDefaultUploadOptions o2) s
  = setDefaultUploadOptions (spreadOptions o1 o2) s.
Proof.
  destruct s as [u xs]. unfold mbind, UpM_bind at 1.
  rewrite !setDefaultUploadOptions_run. cbn.
  by rewrite spreadOptions_assoc.
Qed.

(** ** More on selections *)

Lemma filter_all {A} (P : A -> Prop) `{!∀ x, Decision (P x)} (l : list A) :
  (∀ x, x ∈ l -> P x) -> filter P l = l.
Proof.
  induction l as [|a l IH]; intros Hall; [reflexivity|].
  rewrite filter_cons_True by (apply Hall, list_elem_of_here).
  f_equal. apply IH. intros x Hx. by apply Hall, list_elem_of_further.
Qed.

Lemma selection_all_pass (files : list File) u xs :
  (∀ f, f ∈ files -> withinLimit (config u) f = true) ->
  handleFileSelection files {| this := u; xhrs := xs |}
  = (tt, {| this := withCache u (cacheAll files (fileCache u)); xhrs := xs |},
     [Emit (EvSelect files)]).
Proof.
  intros Hall. rewrite handleFileSelection_run.
  unfold validFiles. rewrite (filter_all _ files Hall).
  by destruct (decide _).
Qed.

(** A batch in which no file is above the configured maximum produces the
    [select] event and nothing else: no [error] event, and the payload is
    the whole batch, in the order of the batch.  This covers the empty
    batch. *)
Theorem selection_without_rejects (s : Sys) (files : list File) :
  (∀ f, f ∈ files -> atOrUnderMax (config (this s)) f) ->
  trace_of (handleFileSelection files s) = [Emit (EvSelect files)].
Proof.
  intros Hall. destruct s as [u xs]. rewrite selection_all_pass; [done|].
  intros f Hf. by apply atOrUnderMax_withinLimit, Hall.
Qed.

Lemma selection_without_rejects_witness :
  trace_of (handleFileSelection [report; notes] (start (new_Uploader emptyConfig)))
  = [Emit (EvSelect [report; notes])].
Proof.
  apply (selection_without_rejects (start (new_Uploader emptyConfig)) [report; notes]).
  intros f Hf m [= <-].
  apply elem_of_cons in Hf as [->|Hf]; [vm_compute; discriminate|].
  apply list_elem_of_singleton in Hf as ->. vm_compute. discriminate.
Defined.

(** With a maximum size of zero, or [undefined], the size filter is off:
    every batch, whatever the sizes of its files, is selected whole and no
    size error is ever reported. *)
Theorem selection_is_unlimited_without_max (s : Sys) (files : list File) :
  (∀ m, read (maxSize (config (this s))) = Some m -> m = 0) ->
  trace_of (handleFileSelection files s) = [Emit (EvSelect files)] ∧
  ∀ f, lastWithKey (generateFileKey f) files = Some f ->
       getCachedFile (final (handleFileSelection files s)) (generateFileKey f) = Some f.
Proof.
  intros Hm. destruct s as [u xs]. cbn [this] in Hm.
  assert (∀ f, withinLimit (config u) f = true) as Hall.
  { intros f. unfold withinLimit, sizeLimit.
    destruct (read (maxSize (config u))) as [m|]; [|done].
    rewrite (Hm m eq_refl). done. }
  rewrite selection_all_pass by (intros; apply Hall).
  split; [done|]. intros f Hf. unfold getCachedFile, final. cbn.
  by rewrite cacheAll_lookup, Hf.
Qed.

Lemma selection_is_unlimited_without_max_witness :
  trace_of (handleFileSelection [movie] (start (new_Uploader zeroMax)))
  = [Emit (EvSelect [movie])].
Proof.
  apply (selection_is_unlimited_without_max (start (new_Uploader zeroMax)) [movie]).
  by intros m [= <-].
Defined.

Lemma cacheAll_idempotent l (cache : gmap string File) :
  cacheAll l (cacheAll l cache) = cacheAll l cache.
Proof.
  apply map_eq. intros key. rewrite !cacheAll_lookup.
  by destruct (lastWithKey key l).
Qed.

(** Selecting the same batch a second time changes nothing: the instance is
    as after the first selection, and the same events are emitted again. *)
Theorem reselecting_a_batch_changes_nothing (s : Sys) (files : list File) :
  let r1 := handleFileSelection files s in
  let r2 := handleFileSelection files (state_of r1) in
  state_of r2 = state_of r1 ∧ trace_of r2 = trace_of r1.
Proof.
  destruct s as [u xs]. cbn zeta. rewrite handleFileSelection_run.
  unfold state_of. cbn [fst snd]. rewrite handleFileSelection_run.
  cbn [fst snd withCache config fileCache trace_of].
  by rewrite cacheAll_idempotent.
Qed.

(** The change listener of the file input: without a file list it does
    nothing at all; with an empty file list it emits one [select] event
    with an empty payload, no [error] event, and leaves the instance as it
    is. *)
Theorem change_event_without_files (u : Uploader) :
  onChange None (start u) = (tt, start u, []) ∧
  trace_of (onChange (Some []) (start u)) = [Emit (EvSelect [])] ∧
  fileCache (final (onChange (Some []) (start u))) = fileCache u ∧
  config (final (onChange (Some []) (start u))) = config u ∧
  defaultUploadOptions (final (onChange (Some []) (start u))) = defaultUploadOptions u.
Proof.
  split; [reflexivity|]. unfold onChange, start.
  rewrite handleFileSelection_run. done.
Qed.

Lemma cacheAll_size l : ∀ cache : gmap string File,
  (base.size (cacheAll l cache) ≤ base.size cache + length l)%nat.
Proof.
  induction l as [|a l IH]; intros cache; [cbn; lia|].
  cbn [cacheAll foldl length]. specialize (IH (<[generateFileKey a := a]> cache)).
  unfold cacheAll in IH. rewrite map_size_insert in IH.
  destruct (cache !! generateFileKey a); cbn in IH; lia.
Qed.

(** A selection touches the cache only under the keys of the files it
    keeps: every other key reads as before, an entry of a kept file's key
    is replaced, and the cache grows by at most the number of kept files.
    The configuration and the default options are not changed. *)
Theorem selection_frame (s : Sys) (files : list File) :
  let r := handleFileSelection files s in
  let cfg := config (this s) in
  (∀ key, (∀ f, f ∈ files -> withinLimit cfg f = true -> generateFileKey f ≠ key) ->
          fileCache (final r) !! key = fileCache (this s) !! key) ∧
  (base.size (fileCache (final r))
   ≤ base.size (fileCache (this s)) + length (validFiles cfg files))%nat ∧
  config (final r) = cfg ∧
  defaultUploadOptions (final r) = defaultUploadOptions (this s) ∧
  xhrs (state_of r) = xhrs s.
Proof.
  destruct s as [u xs]. cbn zeta. rewrite handleFileSelection_run.
  unfold final, state_of. cbn [fst snd this xhrs withCache fileCache config
                                 defaultUploadOptions].
  split; [|split; [apply cacheAll_size|done]].
  intros key Hkey. rewrite cacheAll_lookup.
  destruct (lastWithKey key _) as [g|] eqn:Hg; [|done].
  apply lastWithKey_elem in Hg as [Hin Hk].
  apply list_elem_of_filter in Hin as [Hok Hin].
  by destruct (Hkey g Hin Hok).
Qed.

(** ** What the default transport sends *)

Lemma upload_requests network native u file options req :
  req ∈ requests (trace_of (upload network native file options (start u))) ->
  req = defaultRequest file (Some (spreadOptional (defaultUploadOptions u) options)).
Proof.
  intros Hreq. apply list_elem_of_omap in Hreq as (a & Ha & Hfetch).
  pose proof (upload_alphabet network native file options u) as Hall.
  rewrite Forall_forall in Hall. specialize (Hall a Ha).
  destruct Hall; try discriminate.
  unfold invocation in Hfetch. destruct (read (customUploader _)); [discriminate|].
  by injection Hfetch as <-.
Qed.



(** A property present in the per-call options replaces the default
    outright, also when its value is [undefined] and also when it is an
    object: with [url: undefined] the request goes to ['/upload'] whatever
    address the instance defaults hold; per-call [headers] are sent alone,
    no default header with them; per-call [data] alone follows the file in
    the body. *)
Theorem per_call_options_replace_defaults network native (u : Uploader) (file : File)
    (o : UploadOptions) (req : Request) :
  req ∈ requests (trace_of (upload network native file (Some o) (start u))) ->
  (url o = Undefined -> req_url req = "/upload") ∧
  (method o = Undefined -> req_method req = POST) ∧
  (headers o = Undefined -> req_headers req = None) ∧
  (∀ h, headers o = Value h -> req_headers req = Some h) ∧
  (data o = Undefined -> req_body req = [("file", FormFile file)]) ∧
  (∀ d, data o = Value d ->
        req_body req
        = ("file", FormFile file) :: map (fun kv => (fst kv, FormField (snd kv))) d).
Proof.
  intros Hreq. apply upload_requests in Hreq as ->.
  unfold defaultRequest, targetUrl, targetMethod, formData.
  cbn [req_url req_method req_body req_headers mbind option_bind spreadOptional
         spreadOptions url method headers data].
  repeat split.
  - by intros ->.
  - by intros ->.
  - by intros ->.
  - by intros h ->.
  - by intros ->.
  - by intros d ->.
Qed.

Lemma per_call_options_replace_defaults_witness :
  let u := final (setDefaultUploadOptions authorised (start (new_Uploader emptyConfig))) in
  ∃ req,
    read (url (defaultUploadOptions u)) = Some "/a" ∧
    requests (trace_of (upload online silent report (Some perCall) (start u))) = [req] ∧
    req_url req = "/upload" ∧
    req_headers req = Some [("X-Test", "test")].
Proof.
  cbn zeta. eexists. split; [reflexivity|]. split; [reflexivity|].
  destruct (per_call_options_replace_defaults online silent
              (final (setDefaultUploadOptions authorised
                        (start (new_Uploader emptyConfig))))
              report perCall
              (defaultRequest report
                 (Some (spreadOptional authorised (Some perCall)))))
    as (Hurl & _ & _ & Hheaders & _).
  - apply list_elem_of_here.
  - split; [by apply Hurl|by apply Hheaders].
Defined.

(** ** Where cached files come from *)

Lemma selectedIn_cons op ops f : selectedIn ops f -> selectedIn (op :: ops) f.
Proof. intros (files & Hin & Hf). exists files. split; [by apply list_elem_of_further|done]. Qed.

Section Provenance.

Variable network : Request -> nat -> Behaviour.
Variable native : nat -> list ProgressEvent.

Lemma perform_unsent op s :
  unsent (xhrs s) -> unsent (xhrs (state_of (perform network native op s))).
Proof.
  destruct s as [u xs]. cbn [xhrs]. intros Hxs.
  destruct op as [[files|]|o|file options]; cbn [perform onChange].
  - by rewrite handleFileSelection_run.
  - done.
  - by rewrite setDefaultUploadOptions_run.
  - unfold mbind, UpM_bind, mret, UpM_ret. rewrite upload_unfold.
    pose proof (attempt_state network native file
                  (spreadOptional (defaultUploadOptions u) options) u _
                  (unsent_progressXhr _ Hxs) (S (retryBudget (config u))) 0) as Hst.
    destruct (attemptUpload _ _ _ _ _ _ _ _) as [[res s'] t].
    unfold state_of, result_of in *. cbn [fst snd] in *. subst s'.
    destruct res as [[v|e]|]; by apply unsent_progressXhr.
Qed.

Lemma perform_provenance (P : File -> Prop) op s :
  unsent (xhrs s) ->
  (∀ key f, fileCache (this s) !! key = Some f -> P f) ->
  ∀ key f, fileCache (this (state_of (perform network native op s))) !! key = Some f ->
           P f ∨ selectedIn [op] f.
Proof.
  destruct s as [u xs]. cbn [this xhrs]. intros Hxs Hold key f.
  destruct op as [[files|]|o|file options]; cbn [perform onChange].
  - rewrite handleFileSelection_run. unfold state_of. cbn [fst snd this withCache fileCache].
    rewrite cacheAll_lookup.
    destruct (lastWithKey key _) as [g|] eqn:Hg.
    + intros [= ->]. right. apply lastWithKey_elem in Hg as [Hin _].
      apply list_elem_of_filter in Hin as [_ Hin].
      exists files. split; [apply list_elem_of_here|done].
    + intros Hk. left. by eapply Hold.
  - intros Hk. left. by eapply Hold.
  - rewrite setDefaultUploadOptions_run. intros Hk. left. by eapply Hold.
  - unfold mbind, UpM_bind, mret, UpM_ret. rewrite upload_unfold.
    pose proof (attempt_state network native file
                  (spreadOptional (defaultUploadOptions u) options) u _
                  (unsent_progressXhr _ Hxs) (S (retryBudget (config u))) 0) as Hst.
    destruct (attemptUpload _ _ _ _ _ _ _ _) as [[res s'] t].
    unfold state_of, result_of in *. cbn [fst snd] in *. subst s'.
    intros Hk. left. destruct res as [[v|e]|]; cbn in Hk.
    + apply lookup_delete_Some in Hk as [_ Hk]. by eapply Hold.
    + by eapply Hold.
    + by eapply Hold.
Qed.

Lemma session_provenance (P : File -> Prop) ops : ∀ s,
  unsent (xhrs s) ->
  (∀ key f, fileCache (this s) !! key = Some f -> P f) ->
  ∀ key f, fileCache (this (state_of (session network native ops s))) !! key = Some f ->
           P f ∨ selectedIn ops f.
Proof.
  unfold session. revert P. induction ops as [|op ops IH]; intros P s Hxs Hold key f.
  - destruct s. intros Hk. left. by eapply Hold.
  - rewrite forEach_state. intros Hk.
    destruct (IH (fun g => P g ∨ selectedIn [op] g)
                (state_of (perform network native op s)) (perform_unsent op s Hxs)
                (perform_provenance P op s Hxs Hold) key f Hk)
      as [[HP|(files & Hin & Hf)]|Hsel].
    + by left.
    + right. exists files. split; [|done].
      apply list_elem_of_singleton in Hin as <-. apply list_elem_of_here.
    + right. by apply selectedIn_cons.
Qed.

End Provenance.

(** Whatever a session does to a fresh instance, a file that
    [getCachedFile] returns was in one of the batches selected during the
    session (and passed the size filter): nothing but a selection puts a
    file into the cache. *)
Theorem cached_files_were_selected network native (c : UploadConfig)
    (ops : list Operation) (key : string) (f : File) :
  let u := final (session network native ops (start (new_Uploader c))) in
  getCachedFile u key = Some f ->
  selectedIn ops f ∧ withinLimit (config (new_Uploader c)) f = true ∧
  generateFileKey f = key.
Proof.
  cbn zeta. unfold getCachedFile, final. intros Hk.
  fold (state_of (session network native ops (start (new_Uploader c)))) in Hk.
  split.
  - destruct (session_provenance network native (fun _ => False) ops
                (start (new_Uploader c)) ltac:(constructor)
                ltac:(intros k g Hg; cbn in Hg; by apply lookup_empty_Some in Hg)
                key f Hk)
      as [[]|Hsel]; exact Hsel.
  - destruct (session_kept network native (config (new_Uploader c))
                (inputElement (new_Uploader c)) ops (start (new_Uploader c)))
      as (_ & _ & Hsound & _).
    + split; [done|]. split; [done|]. split; [|constructor].
      intros k g Hg. cbn in Hg. by apply lookup_empty_Some in Hg.
    + destruct (Hsound key f Hk). done.
Qed.

Lemma cached_files_were_selected_witness :
  selectedIn [OpChange (Some [report; movie]); OpUpload notes None] report ∧
  withinLimit (config (new_Uploader emptyConfig)) report = true ∧
  generateFileKey report = "report.pdf-2048-1700000000000".
Proof.
  apply (cached_files_were_selected offline silent emptyConfig
           [OpChange (Some [report; movie]); OpUpload notes None]
           "report.pdf-2048-1700000000000" report).
  reflexivity.
Defined.

(** ** Listeners *)

Lemma flat_map_replicate_0 {A} (l : list A) : flat_map (replicate 0) l = [].
Proof. by induction l. Qed.

Lemma flat_map_replicate_1 {A} (l : list A) : flat_map (replicate 1) l = l.
Proof.
  induction l as [|a l IH]; [reflexivity|].
  change (a :: flat_map (replicate 1) l = a :: l). by rewrite IH.
Qed.

Lemma handedTo_app l d1 d2 : handedTo l (d1 ++ d2) = handedTo l d1 ++ handedTo l d2.
Proof. unfold handedTo. by rewrite filter_app, fmap_app. Qed.

Lemma handedTo_emit emitter l ev :
  handedTo l (emit emitter "upload" ev) = replicate (registrations emitter l) ev.
Proof.
  unfold emit, registrations, handedTo.
  induction (listenersOf emitter "upload") as [|x ls IH]; [reflexivity|].
  rewrite fmap_cons, !filter_cons. cbn [fst].
  destruct (decide (x = l)); cbn; by rewrite IH.
Qed.

Lemma handedTo_deliveries emitter l t :
  handedTo l (deliveries emitter t)
  = flat_map (replicate (registrations emitter l)) (events t).
Proof.
  unfold deliveries. induction (events t) as [|ev evs IH]; [reflexivity|].
  cbn [flat_map]. by rewrite handedTo_app, handedTo_emit, IH.
Qed.

Lemma listenersOf_on event l emitter name :
  listenersOf (on event l emitter) name
  = if decide (event = name) then listenersOf emitter name ++ [l]
    else listenersOf emitter name.
Proof.
  unfold on, listenersOf at 1. rewrite lookup_insert.
  destruct (decide (event = name)) as [->|]; done.
Qed.

Lemma registrations_on event l' emitter l :
  registrations (on event l' emitter) l
  = (registrations emitter l
     + if decide (event = "upload" ∧ l' = l) then 1 else 0)%nat.
Proof.
  unfold registrations. rewrite listenersOf_on.
  destruct (decide (event = "upload")) as [->|Hne].
  - rewrite filter_app, length_app, filter_cons, filter_nil.
    destruct (decide (l' = l)); destruct (decide _); cbn; try lia; tauto.
  - destruct (decide _) as [[? _]|]; [done|lia].
Qed.

(** When the class emits events, a listener is handed each of them, in the
    order of emission, as many times as it was registered with
    [on('upload', ...)]: not at all when it was never registered under
    that name, twice when it was registered twice. *)
Theorem listener_hears_each_event_per_registration (emitter : gmap string (list nat))
    (l : nat) network native (op : Operation) (s : Sys) :
  let t := trace_of (perform network native op s) in
  handedTo l (deliveries emitter t)
  = flat_map (replicate (registrations emitter l)) (events t) ∧
  (registrations emitter l = 0%nat -> handedTo l (deliveries emitter t) = []) ∧
  (registrations emitter l = 1%nat -> handedTo l (deliveries emitter t) = events t).
Proof.
  cbn zeta. rewrite handedTo_deliveries. split; [done|]. split; intros ->.
  - apply flat_map_replicate_0.
  - apply flat_map_replicate_1.
Qed.

Section Clients.

Variable network : Request -> nat -> Behaviour.
Variable native : nat -> list ProgressEvent.

Lemma interactions_cons a items i :
  interactions network native (a :: items) i
  = interactions network native items (interact network native i a).
Proof. reflexivity. Qed.

(** A listener never registered under ['upload'] is handed nothing. *)
Lemma deaf_listener l items : ∀ i,
  (∀ name, Subscribe name l ∈ items -> name ≠ "upload") ->
  registrations (eventEmitter i) l = 0%nat ->
  handedTo l (received i) = [] ->
  registrations (eventEmitter (interactions network native items i)) l = 0%nat ∧
  handedTo l (received (interactions network native items i)) = [].
Proof.
  induction items as [|a items IH]; intros i Hnames Hreg Hrec; [done|].
  rewrite interactions_cons. apply IH.
  - intros name Hin. by apply Hnames, list_elem_of_further.
  - destruct a as [event l'|op]; cbn [interact eventEmitter]; [|done].
    rewrite registrations_on, Hreg.
    destruct (decide _) as [[-> ->]|]; [|done].
    by destruct (Hnames "upload" (list_elem_of_here _ _)).
  - destruct a as [event l'|op]; cbn [interact received]; [done|].
    by rewrite handedTo_app, Hrec, handedTo_deliveries, Hreg, flat_map_replicate_0.
Qed.

Lemma forEach_trace {A} (body : A -> UpM unit) a l s :
  trace_of (forEach (a :: l) body s)
  = trace_of (body a s) ++ trace_of (forEach l body (state_of (body a s))).
Proof.
  cbn [forEach]. unfold mbind, UpM_bind, state_of, trace_of.
  destruct (body a s) as [[[] s1] t1]. cbn [fst snd].
  by destruct (forEach l body s1) as [[[] s2] t2].
Qed.

(** Operations only: the emitter stays, the state is that of the session,
    and the listeners are handed the events of the session. *)
Lemma interactions_operations ops : ∀ i,
  let i' := interactions network native (Operate <$> ops) i in
  sys i' = state_of (session network native ops (sys i)) ∧
  eventEmitter i' = eventEmitter i ∧
  received i'
  = received i ++ deliveries (eventEmitter i)
                    (trace_of (session network native ops (sys i))).
Proof.
  unfold session. induction ops as [|op ops IH]; intros i; cbn zeta.
  - cbn. destruct (sys i). unfold deliveries. cbn. by rewrite app_nil_r.
  - rewrite fmap_cons, interactions_cons.
    destruct (IH (interact network native i (Operate op))) as (Hs & He & Hr).
    rewrite Hs, He, Hr. cbn [interact sys eventEmitter received].
    rewrite forEach_state, forEach_trace.
    split; [done|]. split; [done|].
    unfold deliveries. by rewrite events_app, flat_map_app, app_assoc.
Qed.

End Clients.

(** A listener registered only under names other than ['upload'] (for
    instance under ['select'], ['error'] or ['progress']) is never called,
    whatever is selected or uploaded: every event goes out under the one
    name ['upload']. *)
Theorem listener_on_other_name_is_never_called network native (c : UploadConfig)
    (items : list Interaction) (l : nat) :
  (∀ name, Subscribe name l ∈ items -> name ≠ "upload") ->
  handedTo l (received (interactions network native items (new_Client c))) = [].
Proof.
  intros Hnames.
  by destruct (deaf_listener network native l items (new_Client c) Hnames).
Qed.

Lemma listener_on_other_name_is_never_called_witness :
  handedTo 7 (received (interactions offline silent
                          [Subscribe "select" 7; Subscribe "upload" 8;
                           Operate (OpChange (Some [report]))]
                          (new_Client emptyConfig)))
  = [].
Proof.
  apply (listener_on_other_name_is_never_called offline silent emptyConfig
           [Subscribe "select" 7; Subscribe "upload" 8;
            Operate (OpChange (Some [report]))] 7).
  intros name Hin.
  apply elem_of_cons in Hin as [Heq|Hin]; [by injection Heq as ->|].
  apply elem_of_cons in Hin as [Heq|Hin]; [discriminate Heq|].
  apply list_elem_of_singleton in Hin. discriminate Hin.
Defined.

(** A listener registered once with [on('upload', ...)] is handed every
    event of the operations performed after its registration, once each and
    in order, and none of the events emitted before: nothing is replayed to
    a late subscriber. *)
Theorem subscriber_hears_what_follows network native (c : UploadConfig)
    (before : list Interaction) (l : nat) (ops : list Operation) :
  (∀ name, Subscribe name l ∈ before -> name ≠ "upload") ->
  let i1 := interactions network native before (new_Client c) in
  let i2 := interactions network native (Subscribe "upload" l :: (Operate <$> ops)) i1 in
  handedTo l (received i2) = events (trace_of (session network native ops (sys i1))).
Proof.
  intros Hnames. cbn zeta.
  destruct (deaf_listener network native l before (new_Client c) Hnames)
    as [Hreg Hrec]; [done..|].
  rewrite interactions_cons.
  destruct (interactions_operations network native ops
              (interact network native
                 (interactions network native before (new_Client c))
                 (Subscribe "upload" l))) as (_ & _ & ->).
  cbn [interact sys eventEmitter received].
  rewrite handedTo_app, Hrec, handedTo_deliveries, registrations_on, Hreg.
  destruct (decide _) as [_|Hn]; [|by destruct Hn].
  cbn [app Nat.add]. apply flat_map_replicate_1.
Qed.

Lemma subscriber_hears_what_follows_witness :
  handedTo 8 (received (interactions offline silent
                          [Operate (OpChange (Some [movie])); Subscribe "upload" 8;
                           Operate (OpChange (Some [report]))]
                          (new_Client emptyConfig)))
  = [EvSelect [report]].
Proof.
  apply (subscriber_hears_what_follows offline silent emptyConfig
           [Operate (OpChange (Some [movie]))] 8 [OpChange (Some [report])]).
  intros name Hin. apply list_elem_of_singleton in Hin. discriminate.
Defined.
